(** * limelight: the OLED display controller

    A shallow embedding of [src/limelight/oled_display.py] (class
    [OLEDDisplay]) and the properties its specification states about it.

    The file has four parts:
    - monochrome images and the three PIL operations the controller uses
      ([Image.new], [Image.paste], [ImageOps.invert]);
    - asset directories (user override and packaged defaults);
    - the controller's state, the background animation thread as a
      step function, and the public operations as state transformers;
    - the theorems. *)

From Stdlib Require Import String Ascii.
From Stdlib Require Import ZArith QArith List Lia Bool.
From Stdlib Require Import Sorted Permutation.
Import ListNotations.
Close Scope Q_scope.
Open Scope Z_scope.

Set Implicit Arguments.

(* ================================================================= *)
(** ** Monochrome images                                              *)
(* ================================================================= *)

(** A mode ["1"] image: its size as PIL reports it and its rows of
    pixels, top row first ([true] is a lit pixel). *)
Record Image := mkImage {
  img_width  : Z;
  img_height : Z;
  img_rows   : list (list bool)
}.

Definition img_size (img : Image) : Z * Z := (img_width img, img_height img).

(** The rows agree with the announced size. *)
Definition wf_image (img : Image) : Prop :=
  0 <= img_width img /\ 0 <= img_height img /\
  length (img_rows img) = Z.to_nat (img_height img) /\
  Forall (fun r => length r = Z.to_nat (img_width img)) (img_rows img).

(** [img.getpixel((i, j))], column [i] of row [j]. *)
Definition getpixel (img : Image) (i j : Z) : bool :=
  nth (Z.to_nat i) (nth (Z.to_nat j) (img_rows img) []) false.

(** [Image.new("1", (w, h))]: every pixel off. *)
Definition Image_new (w h : Z) : Image :=
  mkImage w h (repeat (repeat false (Z.to_nat w)) (Z.to_nat h)).

Section Splice.
Context {A B : Type}.
Variable f : A -> B -> A.

(** Copy the run [src] into [dst] from signed position [off] on,
    combining overlapped cells with [f] and dropping what falls
    outside [dst]; the length of [dst] never changes. *)
Definition splice_with (dst : list A) (src : list B) (off : Z) : list A :=
  let n := Z.of_nat (length dst) in
  let m := Z.of_nat (length src) in
  let lo := Z.max 0 off in
  let hi := Z.min n (off + m) in
  if lo <? hi then
    let d0 := Z.to_nat lo in
    let len := Z.to_nat (hi - lo) in
    let s0 := Z.to_nat (lo - off) in
    firstn d0 dst
      ++ map (fun p => f (fst p) (snd p))
           (combine (firstn len (skipn d0 dst)) (firstn len (skipn s0 src)))
      ++ skipn (d0 + len) dst
  else dst.
End Splice.

(** One row of a paste: the overlapped pixels are replaced. *)
Definition paste_row (x : Z) (drow srow : list bool) : list bool :=
  splice_with (fun _ p => p) drow srow x.

(** [dst.paste(src, (x, y))]: [src] is copied with its upper left
    corner at [(x, y)]; the part outside [dst] is clipped. *)
Definition paste (dst src : Image) (box : Z * Z) : Image :=
  let (x, y) := box in
  mkImage (img_width dst) (img_height dst)
          (splice_with (paste_row x) (img_rows dst) (img_rows src) y).

(** [ImageOps.invert(img.convert("L")).convert("1")] on a bilevel
    image: every pixel flipped. *)
Definition invert (img : Image) : Image :=
  mkImage (img_width img) (img_height img) (map (map negb) (img_rows img)).

(* ================================================================= *)
(** ** Exceptions, assets and collaborators                           *)
(* ================================================================= *)

(** The exceptions the modelled code can meet. *)
Inductive Exn :=
| ZeroDivisionError       (* [1.0 / fps] with [fps = 0] *)
| OverflowError           (* [1.0 / fps] with [fps] too large for a float *)
| ValueError              (* [time.sleep] of a negative length *)
| UnidentifiedImageError. (* [Image.open] on a file that is no bitmap *)

Inductive result (A : Type) :=
| Ok (a : A)
| Raise (e : Exn).
Arguments Ok {A} a.
Arguments Raise {A} e.

Definition bind {A B : Type} (r : result A) (k : A -> result B) : result B :=
  match r with
  | Ok a => k a
  | Raise e => Raise e
  end.

Notation "x <- r ;; k" := (bind r (fun x => k))
  (at level 61, r at next level, right associativity).

(** What a file holds: a bitmap PIL can decode, or something else. *)
Inductive FileContent :=
| Bitmap (img : Image)
| Corrupt.

(** [Image.open(path).convert("1")]. *)
Definition Image_open (c : FileContent) : result Image :=
  match c with
  | Bitmap img => Ok img
  | Corrupt => Raise UnidentifiedImageError
  end.

(** A directory: its entries by file name, in the order the operating
    system happens to list them. *)
Definition Directory := list (string * FileContent).

(** The two asset roots.  Each function answers an [exists()] test and
    gives the content: [None] when the path does not exist.
    Animations are looked up by directory name, icons by file name. *)
Record Assets := mkAssets {
  user_animations_path    : string -> option Directory;
  user_icons_path         : string -> option FileContent;
  package_animations_path : string -> option Directory;
  package_icons_path      : string -> option FileContent
}.

(** Does [s] end with [suffix]? *)
Definition ends_with (suffix s : string) : bool :=
  let n := String.length s in
  let m := String.length suffix in
  (m <=? n)%nat && String.eqb (substring (n - m) m s) suffix.

(** [dir.glob("*.bmp")]. *)
Definition glob_bmp (dir : Directory) : Directory :=
  filter (fun entry => ends_with ".bmp" (fst entry)) dir.

Fixpoint insert_sorted (entry : string * FileContent) (l : Directory)
  : Directory :=
  match l with
  | [] => [entry]
  | h :: t =>
      if String.leb (fst entry) (fst h) then entry :: l
      else h :: insert_sorted entry t
  end.

(** [sorted(...)] on paths of one directory: by file name. *)
Definition sorted (l : Directory) : Directory :=
  fold_right insert_sorted [] l.

(** The default font, as far as [display_message] uses it:
    [draw.textbbox((0, 0), message, font)] and
    [draw.text((x, y), message, font, fill=255)]. *)
Record Font := mkFont {
  textbbox  : string -> Z * Z * Z * Z;
  draw_text : Image -> Z * Z -> string -> Image
}.

(** The SSD1306 driver object: the frame buffer [image()] and
    [fill()] write, and every frame [show()] has sent to the panel,
    oldest first. *)
Record Device := mkDevice {
  buffer : Image;
  shown  : list Image
}.

Definition Device_image (frame : Image) (d : Device) : Device :=
  mkDevice frame (shown d).

Definition Device_fill0 (d : Device) : Device :=
  mkDevice (Image_new (img_width (buffer d)) (img_height (buffer d))) (shown d).

Definition Device_show (d : Device) : Device :=
  mkDevice (buffer d) (shown d ++ [buffer d]).

(** What the panel shows. *)
Definition visible (d : Device) : Image := last (shown d) (buffer d).

(** The two callbacks a [threading.Timer] is created with. *)
Inductive Callback :=
| call_display_idle
| call_clear.

Inductive TimerStatus :=
| Pending     (* started, waiting for its interval *)
| Cancelled   (* [cancel()] came first *)
| Running     (* the interval is over, the callback is executing *)
| Finished.   (* the callback has returned *)

Record Timer := mkTimer {
  interval : Q;
  function : Callback;
  status   : TimerStatus
}.

(** [timer.is_alive()]. *)
Definition Timer_is_alive (t : Timer) : bool :=
  match status t with
  | Pending | Running => true
  | Cancelled | Finished => false
  end.

(** [timer.cancel()]: stops a timer that has not fired yet. *)
Definition Timer_cancel (t : Timer) : Timer :=
  match status t with
  | Pending => mkTimer (interval t) (function t) Cancelled
  | _ => t
  end.

(** The records [logging.error] receives. *)
Inductive LogRecord :=
| Animation_not_found (animation_name : string)
| No_frames_found (animation_name : string)
| Error_in_animation (animation_name : string) (e : Exn)
| Image_not_found (image_name : string)
| Error_displaying_image (image_name : string) (e : Exn).

(* ================================================================= *)
(** ** The animation thread                                           *)
(* ================================================================= *)

(** Where the body of [_animate] stands.  [frames] and [delay] are its
    local variables; [rest] is what the running [for] has not yet
    visited. *)
Inductive PC :=
| AtStart
| AtWhile (frames : list Image) (delay : Q)
| AtFor (frames rest : list Image) (delay : Q)
| AtSleep (frames rest : list Image) (delay : Q)
| Exited.

(** [threading.Thread(target=self._animate, args=(animation_name, loop,
    fps))], once started. *)
Record Thread := mkThread {
  animation_name : string;
  loop : bool;
  fps  : Z;
  pc   : PC
}.

Definition Thread_is_alive (t : Thread) : bool :=
  match pc t with
  | Exited => false
  | _ => true
  end.

(* ================================================================= *)
(** ** The controller                                                 *)
(* ================================================================= *)

(** An [OLEDDisplay] object with the part of the world it acts on: the
    asset directories, the timers it has started and the error log.
    [is_animinating] is the attribute the [finally] clause of
    [_animate] assigns; [__init__] does not create it. *)
Record OLEDDisplay := mkOLEDDisplay {
  display        : Device;
  width          : Z;
  height         : Z;
  image          : Image;
  font           : Font;
  current_thread : option Thread;
  timer          : option nat;
  is_animating   : bool;
  is_animinating : option bool;
  assets         : Assets;
  timers         : list Timer;
  log            : list LogRecord
}.

Definition set_display (d : Device) (self : OLEDDisplay) : OLEDDisplay :=
  mkOLEDDisplay d (width self) (height self) (image self) (font self)
    (current_thread self) (timer self) (is_animating self)
    (is_animinating self) (assets self) (timers self) (log self).

Definition set_image (i : Image) (self : OLEDDisplay) : OLEDDisplay :=
  mkOLEDDisplay (display self) (width self) (height self) i (font self)
    (current_thread self) (timer self) (is_animating self)
    (is_animinating self) (assets self) (timers self) (log self).

Definition set_current_thread (t : option Thread) (self : OLEDDisplay)
  : OLEDDisplay :=
  mkOLEDDisplay (display self) (width self) (height self) (image self)
    (font self) t (timer self) (is_animating self)
    (is_animinating self) (assets self) (timers self) (log self).

Definition set_timer (t : option nat) (self : OLEDDisplay) : OLEDDisplay :=
  mkOLEDDisplay (display self) (width self) (height self) (image self)
    (font self) (current_thread self) t (is_animating self)
    (is_animinating self) (assets self) (timers self) (log self).

Definition set_is_animating (b : bool) (self : OLEDDisplay) : OLEDDisplay :=
  mkOLEDDisplay (display self) (width self) (height self) (image self)
    (font self) (current_thread self) (timer self) b
    (is_animinating self) (assets self) (timers self) (log self).

Definition set_is_animinating (b : bool) (self : OLEDDisplay) : OLEDDisplay :=
  mkOLEDDisplay (display self) (width self) (height self) (image self)
    (font self) (current_thread self) (timer self) (is_animating self)
    (Some b) (assets self) (timers self) (log self).

Definition set_timers (ts : list Timer) (self : OLEDDisplay) : OLEDDisplay :=
  mkOLEDDisplay (display self) (width self) (height self) (image self)
    (font self) (current_thread self) (timer self) (is_animating self)
    (is_animinating self) (assets self) ts (log self).

(** [logging.error(...)]. *)
Definition logging_error (r : LogRecord) (self : OLEDDisplay) : OLEDDisplay :=
  mkOLEDDisplay (display self) (width self) (height self) (image self)
    (font self) (current_thread self) (timer self) (is_animating self)
    (is_animinating self) (assets self) (timers self) (log self ++ [r]).

(** [__init__] on a machine that has the hardware: a 128 x 32 panel,
    cleared and shown once, no thread, no timer, flag down. *)
Definition OLEDDisplay_init (f : Font) (a : Assets) : OLEDDisplay :=
  let d := Device_show (Device_fill0 (mkDevice (Image_new 128 32) [])) in
  mkOLEDDisplay d 128 32 (Image_new 128 32) f None None false None a [] [].

(** [_center_image], lines 167-173. *)
Definition _center_image (self : OLEDDisplay) (img : Image) : Image :=
  let centered_image := Image_new (width self) (height self) in
  let (img_width, img_height) := img_size img in
  let x := (width self - img_width) / 2 in
  let y := (height self - img_height) / 2 in
  paste centered_image img (x, y).

(** [self.display.image(frame); self.display.show()], the push to the
    panel every rendering path ends in. *)
Definition push (frame : Image) (self : OLEDDisplay) : OLEDDisplay :=
  set_display (Device_show (Device_image frame (display self))) self.

(* ----------------------------------------------------------------- *)
(** *** [_animate], lines 58-100                                      *)
(* ----------------------------------------------------------------- *)

(** The two identical loading loops (lines 67-70 and 80-83): every
    file is opened, converted and centered, in the given order. *)
Fixpoint load_frames (self : OLEDDisplay) (frame_files : Directory)
  : result (list Image) :=
  match frame_files with
  | [] => Ok []
  | (_, frame_file) :: more =>
      frame_image <- Image_open frame_file ;;
      let centered_frame := _center_image self frame_image in
      frames <- load_frames self more ;;
      Ok (centered_frame :: frames)
  end.

(** Lines 64-83: the user directory when it exists, the packaged one
    otherwise.  [Ok None] is the early [return] of line 78, after its
    error has been logged by the caller. *)
Definition find_frames (self : OLEDDisplay) (animation_name : string)
  : result (option (list Image)) :=
  match user_animations_path (assets self) animation_name with
  | Some user_animation_dir =>
      frames <- load_frames self (sorted (glob_bmp user_animation_dir)) ;;
      Ok (Some frames)
  | None =>
      match package_animations_path (assets self) animation_name with
      | None => Ok None
      | Some anim_dir =>
          frames <- load_frames self (sorted (glob_bmp anim_dir)) ;;
          Ok (Some frames)
      end
  end.

(** The least magnitude of an integer that has no float: halfway
    between the largest double, [2^1024 - 2^971], and [2^1024], where
    rounding to nearest goes up. *)
Definition float_limit : Z := 2 ^ 1024 - 2 ^ 970.

(** [delay = 1.0 / fps] for an integer [fps]: the integer is converted
    to a float first, which fails from [float_limit] on, and then
    divides, which fails for zero.  Of the quotient only the value as
    a rational is kept. *)
Definition delay_of (fps : Z) : result Q :=
  if fps =? 0 then Raise ZeroDivisionError
  else if float_limit <=? Z.abs fps then Raise OverflowError
  else Ok (/ inject_Z fps)%Q.

(** [time.sleep(delay)]: a negative length is refused. *)
Definition time_sleep (delay : Q) : result unit :=
  if Qle_bool 0 delay then Ok tt else Raise ValueError.

Definition goto (t : Thread) (p : PC) (self : OLEDDisplay) : OLEDDisplay :=
  set_current_thread
    (Some (mkThread (animation_name t) (loop t) (fps t) p)) self.

(** The [finally] clause, line 100, and the end of the thread.  The
    assignment goes to [is_animinating]. *)
Definition finally_exit (t : Thread) (self : OLEDDisplay) : OLEDDisplay :=
  goto t Exited (set_is_animinating false self).

(** The [except] clause, lines 97-98, followed by [finally]. *)
Definition except_exit (t : Thread) (e : Exn) (self : OLEDDisplay)
  : OLEDDisplay :=
  finally_exit t (logging_error (Error_in_animation (animation_name t) e) self).

(** Lines 60-87: everything before the [while]. *)
Definition _animate_prepare (t : Thread) (self : OLEDDisplay) : OLEDDisplay :=
  match delay_of (fps t) with
  | Raise e => except_exit t e self
  | Ok delay =>
      match find_frames self (animation_name t) with
      | Raise e => except_exit t e self
      | Ok None =>
          finally_exit t
            (logging_error (Animation_not_found (animation_name t)) self)
      | Ok (Some []) =>
          finally_exit t
            (logging_error (No_frames_found (animation_name t)) self)
      | Ok (Some frames) => goto t (AtWhile frames delay) self
      end
  end.

(** One step of the thread that runs [_animate]:
    - at the [while], the flag is read once (line 89);
    - at the [for], the next frame is pushed under the lock (lines
      90-93), or the pass is over and [loop] decides (lines 95-96);
    - then the thread sleeps (line 94).
    The lock is taken and released inside a single step of this model,
    so it is free between any two steps. *)
Definition _animate_step (self : OLEDDisplay) : OLEDDisplay :=
  match current_thread self with
  | None => self
  | Some t =>
      match pc t with
      | AtStart => _animate_prepare t self
      | AtWhile frames delay =>
          if is_animating self then goto t (AtFor frames frames delay) self
          else finally_exit t self
      | AtFor frames [] delay =>
          if negb (loop t) then finally_exit t self
          else goto t (AtWhile frames delay) self
      | AtFor frames (frame :: rest) delay =>
          goto t (AtSleep frames rest delay) (push frame self)
      | AtSleep frames rest delay =>
          match time_sleep delay with
          | Raise e => except_exit t e self
          | Ok _ => goto t (AtFor frames rest delay) self
          end
      | Exited => self
      end
  end.

(** [n] steps of the thread. *)
Fixpoint run (n : nat) (self : OLEDDisplay) : OLEDDisplay :=
  match n with
  | O => self
  | S n' => run n' (_animate_step self)
  end.

(** How many steps a thread needs at most to leave [_animate] once the
    flag is down. *)
Definition steps_to_exit (p : PC) : nat :=
  match p with
  | AtStart => 2
  | AtWhile _ _ => 1
  | AtFor _ rest _ => 2 * length rest + 2
  | AtSleep _ rest _ => 2 * length rest + 3
  | Exited => 0
  end.

(** [self.current_thread.join()]: the caller waits while the thread
    runs to its end. *)
Definition join (self : OLEDDisplay) : OLEDDisplay :=
  match current_thread self with
  | None => self
  | Some t => run (steps_to_exit (pc t)) self
  end.

(* ----------------------------------------------------------------- *)
(** *** The public operations                                         *)
(* ----------------------------------------------------------------- *)

(** [stop_animation], lines 161-165. *)
Definition stop_animation (self : OLEDDisplay) : OLEDDisplay :=
  let self := set_is_animating false self in
  match current_thread self with
  | Some t =>
      if Thread_is_alive t then set_current_thread None (join self)
      else self
  | None => self
  end.

(** [play_animation], lines 50-56. *)
Definition play_animation (animation_name : string) (loop : bool) (fps : Z)
           (self : OLEDDisplay) : OLEDDisplay :=
  let self := stop_animation self in
  let self := set_is_animating true self in
  set_current_thread (Some (mkThread animation_name loop fps AtStart)) self.

Fixpoint update_nth {A : Type} (i : nat) (f : A -> A) (l : list A) : list A :=
  match l, i with
  | [], _ => []
  | a :: l', O => f a :: l'
  | a :: l', S i' => a :: update_nth i' f l'
  end.

(** [if self.timer and self.timer.is_alive(): self.timer.cancel()],
    as lines 104-105, 125-126 and 155-156 have it. *)
Definition cancel_timer (self : OLEDDisplay) : OLEDDisplay :=
  match timer self with
  | None => self
  | Some i =>
      match nth_error (timers self) i with
      | Some t =>
          if Timer_is_alive t
          then set_timers (update_nth i Timer_cancel (timers self)) self
          else self
      | None => self
      end
  end.

(** [self.timer = threading.Timer(duration, f); self.timer.start()]. *)
Definition start_timer (duration : Q) (f : Callback) (self : OLEDDisplay)
  : OLEDDisplay :=
  set_timer (Some (length (timers self)))
    (set_timers (timers self ++ [mkTimer duration f Pending]) self).

(** [draw.rectangle((0, 0, width, height), outline=0, fill=0)] on the
    canvas: all of it goes dark. *)
Definition draw_rectangle_black (img : Image) : Image :=
  mkImage (img_width img) (img_height img)
          (map (map (fun _ => false)) (img_rows img)).

(** Lines 106-115, the section of [display_message] under the lock. *)
Definition draw_message (message : string) (self : OLEDDisplay) : OLEDDisplay :=
  let self := set_image (draw_rectangle_black (image self)) self in
  let '(b0, b1, b2, b3) := textbbox (font self) message in
  let text_width := b2 - b0 in
  let text_height := b3 - b1 in
  let x := (width self - text_width) / 2 in
  let y := (height self - text_height) / 2 in
  let self := set_image (draw_text (font self) (image self) (x, y) message) self in
  push (image self) self.

(** [display_message], lines 102-121. *)
Definition display_message (message : string) (duration : Q)
           (return_to_idle : bool) (self : OLEDDisplay) : OLEDDisplay :=
  let self := stop_animation self in
  let self := cancel_timer self in
  let self := draw_message message self in
  if negb (Qle_bool duration 0) then
    if return_to_idle then start_timer duration call_display_idle self
    else start_timer duration call_clear self
  else self.

(** Lines 129-141 of [display_static_image]: the user icon when it
    exists, the packaged one otherwise; [Ok None] is the early
    [return] of line 140. *)
Definition find_image (self : OLEDDisplay) (image_name : string)
  : result (option Image) :=
  match user_icons_path (assets self) (image_name ++ ".bmp") with
  | Some user_image_path =>
      img <- Image_open user_image_path ;;
      Ok (Some img)
  | None =>
      match package_icons_path (assets self) (image_name ++ ".bmp") with
      | None => Ok None
      | Some img_path =>
          img <- Image_open img_path ;;
          Ok (Some img)
      end
  end.

(** [display_static_image], lines 123-148. *)
Definition display_static_image (image_name : string) (self : OLEDDisplay)
  : OLEDDisplay :=
  let self := stop_animation self in
  let self := cancel_timer self in
  match find_image self image_name with
  | Raise e => logging_error (Error_displaying_image image_name e) self
  | Ok None => logging_error (Image_not_found image_name) self
  | Ok (Some img) =>
      let img := invert img in
      let centered_image := _center_image self img in
      push centered_image self
  end.

(** [display_idle], lines 150-151. *)
Definition display_idle (self : OLEDDisplay) : OLEDDisplay :=
  play_animation "idle" true 2 self.

(** [clear], lines 153-159. *)
Definition clear (self : OLEDDisplay) : OLEDDisplay :=
  let self := stop_animation self in
  let self := cancel_timer self in
  set_display (Device_show (Device_fill0 (display self))) self.

(** Calls that leave the optional arguments out: the defaults of the
    two signatures, lines 50 and 102. *)
Definition play_animation_call (animation_name : string)
           (loop : option bool) (fps : option Z) : OLEDDisplay -> OLEDDisplay :=
  play_animation animation_name
    (match loop with Some l => l | None => false end)
    (match fps with Some f => f | None => 10 end).

Definition display_message_call (message : string) (duration : option Q)
           (return_to_idle : option bool) : OLEDDisplay -> OLEDDisplay :=
  display_message message
    (match duration with Some d => d | None => 0%Q end)
    (match return_to_idle with Some r => r | None => true end).

(** A pending timer reaches its deadline: its callback runs on the
    timer's own thread, as an ordinary call of the operation. *)
Definition fire_timer (i : nat) (self : OLEDDisplay) : OLEDDisplay :=
  match nth_error (timers self) i with
  | Some t =>
      match status t with
      | Pending =>
          let running t := mkTimer (interval t) (function t) Running in
          let finished t := mkTimer (interval t) (function t) Finished in
          let self := set_timers (update_nth i running (timers self)) self in
          let self :=
            match function t with
            | call_display_idle => display_idle self
            | call_clear => clear self
            end in
          set_timers (update_nth i finished (timers self)) self
      | _ => self
      end
  | None => self
  end.

(** The timers still waiting to fire. *)
Definition pending_timers (self : OLEDDisplay) : list Timer :=
  filter (fun t => match status t with Pending => true | _ => false end)
         (timers self).

(** The frames sent to the panel so far. *)
Definition pushed (self : OLEDDisplay) : list Image := shown (display self).

(* ----------------------------------------------------------------- *)
(** *** A small installation to run the model on                      *)
(* ----------------------------------------------------------------- *)

Module Demo.
Local Open Scope string_scope.

(** A font whose glyphs are 6 x 11 boxes. *)
Definition box_font : Font :=
  mkFont
    (fun message => (0, 0, 6 * Z.of_nat (String.length message), 11))
    (fun img xy message =>
       paste img
         (mkImage (6 * Z.of_nat (String.length message)) 11
            (repeat (repeat true (6 * String.length message)) 11))
         xy).

Definition dot : Image := mkImage 1 1 [[true]].
Definition bar : Image := mkImage 2 1 [[true; true]].
Definition square : Image := mkImage 2 2 [[true; false]; [false; true]].

(** The packaged assets: a three-frame animation [spin], a one-frame
    animation [blink], the two-frame [idle] and one icon. *)
Definition packaged_animations (name : string) : option Directory :=
  if String.eqb name "spin" then
    Some [("2.bmp", Bitmap bar); ("1.bmp", Bitmap dot);
          ("3.bmp", Bitmap square); ("notes.txt", Corrupt)]
  else if String.eqb name "blink" then Some [("a.bmp", Bitmap dot)]
  else if String.eqb name "idle" then
    Some [("0.bmp", Bitmap dot); ("1.bmp", Bitmap bar)]
  else None.

Definition packaged_icons (file : string) : option FileContent :=
  if String.eqb file "ok.bmp" then Some (Bitmap square) else None.

(** The user overrides [spin] with a single frame and [ok] with
    another icon. *)
Definition user_animations (name : string) : option Directory :=
  if String.eqb name "spin" then Some [("only.bmp", Bitmap square)]
  else None.

Definition user_icons (file : string) : option FileContent :=
  if String.eqb file "ok.bmp" then Some (Bitmap bar) else None.

Definition packaged_only : Assets :=
  mkAssets (fun _ => None) (fun _ => None) packaged_animations packaged_icons.


(** A controller fresh from [__init__]. *)
Definition fresh : OLEDDisplay := OLEDDisplay_init box_font packaged_only.


End Demo.

(** The same controller on another installation of the assets. *)
Definition set_assets (a : Assets) (self : OLEDDisplay) : OLEDDisplay :=
  mkOLEDDisplay (display self) (width self) (height self) (image self)
    (font self) (current_thread self) (timer self) (is_animating self)
    (is_animinating self) a (timers self) (log self).

(** No thread of [self] is inside [_animate]. *)
Definition no_thread_alive (self : OLEDDisplay) : Prop :=
  match current_thread self with
  | Some t => Thread_is_alive t = false
  | None => True
  end.

(** At most the timer [self.timer] refers to is still waiting. *)
Definition timer_inv (self : OLEDDisplay) : Prop :=
  forall i t,
    nth_error (timers self) i = Some t -> status t = Pending ->
    timer self = Some i.

(** Inside a pass, what is left of it is a tail of the frame list. *)
Definition pass_inv (self : OLEDDisplay) : Prop :=
  match current_thread self with
  | Some t =>
      match pc t with
      | AtFor frames rest _ | AtSleep frames rest _ =>
          exists done, frames = done ++ rest
      | _ => True
      end
  | None => True
  end.

(** [frame] is the centered, otherwise untouched, decoding of a file
    of the directory [_animate] reads for [name]. *)
Definition centered_source (self : OLEDDisplay) (name : string) (frame : Image)
  : Prop :=
  exists dir file img,
    (user_animations_path (assets self) name = Some dir \/
     (user_animations_path (assets self) name = None /\
      package_animations_path (assets self) name = Some dir)) /\
    In (file, Bitmap img) dir /\
    frame = _center_image self img.

(** Every frame the thread holds satisfies [P]. *)
Definition thread_frames (P : Image -> Prop) (self : OLEDDisplay) : Prop :=
  match current_thread self with
  | None => True
  | Some t =>
      match pc t with
      | AtStart =>
          forall frames,
            find_frames self (animation_name t) = Ok (Some frames) ->
            Forall P frames
      | AtWhile frames _ => Forall P frames
      | AtFor frames rest _ | AtSleep frames rest _ =>
          Forall P frames /\ Forall P rest
      | Exited => True
      end
  end.

(** The fields no step of the animation thread writes. *)
Definition same_controls (a b : OLEDDisplay) : Prop :=
  width a = width b /\ height a = height b /\ font a = font b /\
  timer a = timer b /\ timers a = timers b /\ assets a = assets b /\
  is_animating a = is_animating b /\ image a = image b.

(** The thread of [self] stands at [p]. *)
Definition at_pc (self : OLEDDisplay) (p : PC) : Prop :=
  exists t, current_thread self = Some t /\ pc t = p.

(** Is position [(i, j)] of the canvas covered by [img] once it has
    been centered? *)
Definition covered (self : OLEDDisplay) (img : Image) (i j : Z) : bool :=
  let x := (width self - img_width img) / 2 in
  let y := (height self - img_height img) / 2 in
  (x <=? i) && (i <? x + img_width img)
  && ((y <=? j) && (j <? y + img_height img)).

(* ----------------------------------------------------------------- *)
(** *** Everything that can happen to a controller                    *)
(* ----------------------------------------------------------------- *)

(** The calls of the public operations, a step of the animation
    thread, and a timer reaching its deadline. *)
Inductive Event :=
| Call_play_animation (animation_name : string) (loop : bool) (fps : Z)
| Call_display_message (message : string) (duration : Q) (return_to_idle : bool)
| Call_display_static_image (image_name : string)
| Call_display_idle
| Call_clear
| Call_stop_animation
| Thread_step
| Timer_fires (i : nat).

Definition perform (e : Event) (self : OLEDDisplay) : OLEDDisplay :=
  match e with
  | Call_play_animation animation_name loop fps =>
      play_animation animation_name loop fps self
  | Call_display_message message duration return_to_idle =>
      display_message message duration return_to_idle self
  | Call_display_static_image image_name => display_static_image image_name self
  | Call_display_idle => display_idle self
  | Call_clear => clear self
  | Call_stop_animation => stop_animation self
  | Thread_step => _animate_step self
  | Timer_fires i => fire_timer i self
  end.

(** A history of events, oldest first. *)
Definition perform_all (es : list Event) (self : OLEDDisplay) : OLEDDisplay :=
  fold_left (fun s e => perform e s) es self.

(** No timer is waiting. *)
Definition all_settled (self : OLEDDisplay) : Prop :=
  forall i t, nth_error (timers self) i = Some t -> status t <> Pending.

(** The order [sorted] puts directory entries in. *)
Definition name_le (a b : string * FileContent) : Prop :=
  String.leb (fst a) (fst b) = true.

(** A looping animation in full swing: flag up, a delay [time.sleep]
    accepts, and the thread somewhere in its loop. *)
Definition looping (frames : list Image) (self : OLEDDisplay) : Prop :=
  is_animating self = true /\
  exists t, current_thread self = Some t /\ loop t = true /\
    exists delay, Qle_bool 0 delay = true /\
      (pc t = AtWhile frames delay \/
       exists rest, pc t = AtFor frames rest delay \/
                    pc t = AtSleep frames rest delay).

(** [k] copies of [l] in a row. *)
Fixpoint cycles {A : Type} (k : nat) (l : list A) : list A :=
  match k with
  | O => []
  | S k' => l ++ cycles k' l
  end.

(* ----------------------------------------------------------------- *)
(** *** A damaged installation                                        *)
(* ----------------------------------------------------------------- *)

Module Damaged.
Local Open Scope string_scope.

(** The user's [spin] directory holds no bitmap, the user's [blink]
    has a file that is no bitmap between two good ones, and the user's
    [ok] icon is no bitmap either; the package is the one of [Demo]. *)
Definition user_animations (name : string) : option Directory :=
  if String.eqb name "spin" then Some [("readme.txt", Corrupt)]
  else if String.eqb name "blink" then
    Some [("a.bmp", Bitmap Demo.dot); ("b.bmp", Corrupt);
          ("c.bmp", Bitmap Demo.bar)]
  else None.

Definition user_icons (file : string) : option FileContent :=
  if String.eqb file "ok.bmp" then Some Corrupt else None.

Definition installation : Assets :=
  mkAssets user_animations user_icons
           Demo.packaged_animations Demo.packaged_icons.

Definition fresh : OLEDDisplay := OLEDDisplay_init Demo.box_font installation.

End Damaged.

(* ================================================================= *)
(** * Properties                                                      *)
(* ================================================================= *)

(* ----------------------------------------------------------------- *)
(** *** Facts about splicing and pasting                              *)
(* ----------------------------------------------------------------- *)

Section SpliceFacts.
Context {A B : Type}.
Variable f : A -> B -> A.

Lemma splice_with_length (dst : list A) (src : list B) (off : Z) :
  length (splice_with f dst src off) = length dst.
Proof.
  unfold splice_with.
  destruct (Z.max 0 off <? Z.min (Z.of_nat (length dst))
                                (off + Z.of_nat (length src))) eqn:E;
    [ | reflexivity ].
  apply Z.ltb_lt in E.
  rewrite !length_app, length_map, length_combine, !length_firstn,
    !length_skipn.
  lia.
Qed.

Lemma splice_with_nth (dst : list A) (src : list B) (off : Z)
      (k : nat) (da : A) (db : B) :
  (k < length dst)%nat ->
  nth k (splice_with f dst src off) da =
    if (off <=? Z.of_nat k) && (Z.of_nat k <? off + Z.of_nat (length src))
    then f (nth k dst da) (nth (Z.to_nat (Z.of_nat k - off)) src db)
    else nth k dst da.
Proof.
  intros Hk. unfold splice_with.
  set (n := Z.of_nat (length dst)).
  set (m := Z.of_nat (length src)).
  destruct (Z.max 0 off <? Z.min n (off + m)) eqn:E.
  - apply Z.ltb_lt in E.
    set (d0 := Z.to_nat (Z.max 0 off)).
    set (len := Z.to_nat (Z.min n (off + m) - Z.max 0 off)).
    set (s0 := Z.to_nat (Z.max 0 off - off)).
    assert (Hd0 : (d0 + len <= length dst)%nat) by (subst d0 len n; lia).
    assert (Hs0 : (s0 + len <= length src)%nat) by (subst s0 len m n; lia).
    destruct (Nat.ltb_spec k d0) as [Hlt | Hge].
    + (* left of the copied run *)
      rewrite app_nth1 by (rewrite length_firstn; lia).
      rewrite nth_firstn.
      destruct (Nat.ltb_spec k d0); [ | lia ].
      destruct (Z.leb_spec off (Z.of_nat k)); [ subst d0; lia | reflexivity ].
    + rewrite app_nth2 by (rewrite length_firstn; lia).
      rewrite length_firstn, Nat.min_l by lia.
      destruct (Nat.ltb_spec (k - d0) len) as [Hin | Hout].
      * (* inside the copied run *)
        rewrite app_nth1
          by (rewrite length_map, length_combine, !length_firstn,
                !length_skipn; lia).
        rewrite nth_indep with (d' := f da db)
          by (rewrite length_map, length_combine, !length_firstn,
                !length_skipn; lia).
        rewrite (map_nth (fun p => f (fst p) (snd p)) _ (da, db)).
        rewrite combine_nth
          by (rewrite !length_firstn, !length_skipn; lia).
        cbn [fst snd].
        rewrite !nth_firstn.
        destruct (Nat.ltb_spec (k - d0) len); [ | lia ].
        rewrite !nth_skipn.
        replace (d0 + (k - d0))%nat with k by lia.
        replace (s0 + (k - d0))%nat with (Z.to_nat (Z.of_nat k - off))
          by (subst s0 d0; lia).
        destruct (Z.leb_spec off (Z.of_nat k)); [ | subst d0; lia ].
        destruct (Z.ltb_spec (Z.of_nat k) (off + m));
          [ reflexivity | subst d0 len n; lia ].
      * (* right of the copied run *)
        rewrite app_nth2
          by (rewrite length_map, length_combine, !length_firstn,
                !length_skipn; lia).
        rewrite length_map, length_combine, !length_firstn, !length_skipn.
        rewrite nth_skipn.
        replace (d0 + len + (k - d0 - Nat.min (Nat.min len (length dst - d0))
                                          (Nat.min len (length src - s0))))%nat
          with k by lia.
        destruct (Z.leb_spec off (Z.of_nat k)); [ | reflexivity ].
        destruct (Z.ltb_spec (Z.of_nat k) (off + m));
          [ subst d0 len n; lia | reflexivity ].
  - apply Z.ltb_ge in E.
    destruct (Z.leb_spec off (Z.of_nat k)); [ | reflexivity ].
    destruct (Z.ltb_spec (Z.of_nat k) (off + m));
      [ subst n; lia | reflexivity ].
Qed.
End SpliceFacts.

Lemma firstn_In {A : Type} (n : nat) (l : list A) (a : A) :
  In a (firstn n l) -> In a l.
Proof.
  intros H. rewrite <- (firstn_skipn n l). apply in_or_app. left. exact H.
Qed.

Lemma skipn_In {A : Type} (n : nat) (l : list A) (a : A) :
  In a (skipn n l) -> In a l.
Proof.
  intros H. rewrite <- (firstn_skipn n l). apply in_or_app. right. exact H.
Qed.

Section SpliceForall.
Context {A B : Type}.
Variable f : A -> B -> A.
Variable P : A -> Prop.
Hypothesis f_keeps : forall a b, P a -> P (f a b).

Lemma splice_with_Forall (dst : list A) (src : list B) (off : Z) :
  Forall P dst -> Forall P (splice_with f dst src off).
Proof.
  intros Hdst. unfold splice_with.
  destruct (Z.max 0 off <? _); [ | assumption ].
  rewrite Forall_forall in Hdst.
  apply Forall_forall. intros a Ha.
  apply in_app_or in Ha. destruct Ha as [Ha | Ha].
  - apply Hdst. eapply firstn_In. eassumption.
  - apply in_app_or in Ha. destruct Ha as [Ha | Ha].
    + apply in_map_iff in Ha. destruct Ha as [[a0 b0] [<- Hin]].
      cbn [fst snd]. apply f_keeps, Hdst.
      apply in_combine_l in Hin.
      eapply skipn_In, firstn_In. eassumption.
    + apply Hdst. eapply skipn_In. eassumption.
Qed.
End SpliceForall.

Lemma wf_image_row (img : Image) (j : nat) :
  wf_image img -> (j < length (img_rows img))%nat ->
  length (nth j (img_rows img) []) = Z.to_nat (img_width img).
Proof.
  intros (_ & _ & _ & Hrows) Hj.
  rewrite Forall_forall in Hrows. apply Hrows, nth_In, Hj.
Qed.

Lemma Image_new_wf (w h : Z) : 0 <= w -> 0 <= h -> wf_image (Image_new w h).
Proof.
  intros Hw Hh. unfold wf_image, Image_new. cbn.
  repeat split; try assumption.
  - apply repeat_length.
  - apply Forall_forall. intros r Hr.
    apply repeat_spec in Hr. subst r. apply repeat_length.
Qed.

Lemma Image_new_getpixel (w h i j : Z) : getpixel (Image_new w h) i j = false.
Proof.
  unfold getpixel, Image_new. cbn.
  destruct (Nat.ltb_spec (Z.to_nat j) (Z.to_nat h)) as [Hj | Hj].
  - rewrite nth_repeat_lt by assumption. apply nth_repeat.
  - rewrite (nth_overflow (repeat (repeat false (Z.to_nat w)) (Z.to_nat h)))
      by (rewrite repeat_length; assumption).
    destruct (Z.to_nat i); reflexivity.
Qed.

Lemma paste_size (dst src : Image) (box : Z * Z) :
  img_size (paste dst src box) = img_size dst.
Proof. destruct box. reflexivity. Qed.

Lemma paste_wf (dst src : Image) (box : Z * Z) :
  wf_image dst -> wf_image (paste dst src box).
Proof.
  intros (Hw & Hh & Hlen & Hrows). destruct box as [x y].
  unfold wf_image, paste. cbn.
  repeat split; try assumption.
  - rewrite splice_with_length. assumption.
  - apply splice_with_Forall; [ | assumption ].
    intros drow srow Hd. unfold paste_row.
    rewrite splice_with_length. assumption.
Qed.

(** What a paste shows at a position inside the destination: the
    source where its box covers the position, the old content
    elsewhere. *)
Lemma paste_getpixel (dst src : Image) (x y i j : Z) :
  wf_image dst -> wf_image src ->
  0 <= i < img_width dst -> 0 <= j < img_height dst ->
  getpixel (paste dst src (x, y)) i j =
    if (x <=? i) && (i <? x + img_width src)
       && ((y <=? j) && (j <? y + img_height src))
    then getpixel src (i - x) (j - y)
    else getpixel dst i j.
Proof.
  intros Hdst Hsrc Hi Hj.
  pose proof Hdst as (_ & _ & Hdl & _).
  pose proof Hsrc as (Hsw & Hsh & Hsl & _).
  unfold getpixel, paste. cbn [img_rows].
  rewrite splice_with_nth with (db := @nil bool) by lia.
  rewrite Hsl, !Z2Nat.id by lia.
  destruct ((y <=? j) && (j <? y + img_height src)) eqn:Ey.
  - apply andb_true_iff in Ey. destruct Ey as [Ey1 Ey2].
    apply Z.leb_le in Ey1. apply Z.ltb_lt in Ey2.
    unfold paste_row.
    rewrite splice_with_nth with (db := false)
      by (rewrite wf_image_row by (assumption || lia); lia).
    rewrite (wf_image_row (j := Z.to_nat (j - y)) Hsrc) by lia.
    rewrite !Z2Nat.id by lia.
    rewrite andb_true_r. reflexivity.
  - rewrite andb_false_r. reflexivity.
Qed.


(* ----------------------------------------------------------------- *)
(** *** What the thread and the operations leave alone                *)
(* ----------------------------------------------------------------- *)

Lemma same_controls_refl (a : OLEDDisplay) : same_controls a a.
Proof. repeat split. Qed.

Lemma same_controls_trans (a b c : OLEDDisplay) :
  same_controls a b -> same_controls b c -> same_controls a c.
Proof.
  unfold same_controls.
  intros (?&?&?&?&?&?&?&?) (?&?&?&?&?&?&?&?).
  repeat split; congruence.
Qed.

Ltac step_cases :=
  unfold _animate_step, _animate_prepare, except_exit, finally_exit, goto;
  repeat match goal with
    | |- context [match ?x with _ => _ end] => destruct x eqn:?
    end.

Lemma _animate_step_same_controls (self : OLEDDisplay) :
  same_controls (_animate_step self) self.
Proof. step_cases; repeat split. Qed.

Lemma run_same_controls (n : nat) (self : OLEDDisplay) :
  same_controls (run n self) self.
Proof.
  revert self. induction n as [| n IH]; intros self; cbn [run].
  - apply same_controls_refl.
  - eapply same_controls_trans; [ apply IH | apply _animate_step_same_controls ].
Qed.

(** No exit of [_animate] writes the flag [stop_animation] and the
    [while] read: the thread leaves [is_animating] as it found it. *)
Lemma run_is_animating (n : nat) (self : OLEDDisplay) :
  is_animating (run n self) = is_animating self.
Proof. apply run_same_controls. Qed.

(* ----------------------------------------------------------------- *)
(** *** The thread, step by step                                      *)
(* ----------------------------------------------------------------- *)

Lemma at_pc_goto (t : Thread) (p : PC) (self : OLEDDisplay) :
  at_pc (goto t p self) p.
Proof. eexists. split; reflexivity. Qed.

Lemma at_pc_finally_exit (t : Thread) (self : OLEDDisplay) :
  at_pc (finally_exit t self) Exited.
Proof. eexists. split; reflexivity. Qed.

Lemma at_pc_except_exit (t : Thread) (e : Exn) (self : OLEDDisplay) :
  at_pc (except_exit t e self) Exited.
Proof. eexists. split; reflexivity. Qed.

Create HintDb thread.
#[local] Hint Resolve at_pc_goto at_pc_finally_exit at_pc_except_exit : thread.

Lemma step_Exited (self : OLEDDisplay) :
  at_pc self Exited -> _animate_step self = self.
Proof.
  intros (t & Ht & Hpc). unfold _animate_step. rewrite Ht, Hpc. reflexivity.
Qed.

Lemma run_Exited (n : nat) (self : OLEDDisplay) :
  at_pc self Exited -> run n self = self.
Proof.
  intros H. induction n as [| n IH]; cbn [run]; [ reflexivity | ].
  rewrite step_Exited; assumption.
Qed.

Lemma step_is_animating (self : OLEDDisplay) :
  is_animating (_animate_step self) = is_animating self.
Proof. apply _animate_step_same_controls. Qed.

Lemma step_AtWhile_down (self : OLEDDisplay) (frames : list Image) (delay : Q) :
  at_pc self (AtWhile frames delay) -> is_animating self = false ->
  at_pc (_animate_step self) Exited /\
  pushed (_animate_step self) = pushed self /\
  log (_animate_step self) = log self.
Proof.
  intros (t & Ht & Hpc) Hflag. unfold _animate_step.
  rewrite Ht, Hpc, Hflag. repeat split. auto with thread.
Qed.

Lemma step_AtWhile_up (self : OLEDDisplay) (frames : list Image) (delay : Q) :
  at_pc self (AtWhile frames delay) -> is_animating self = true ->
  at_pc (_animate_step self) (AtFor frames frames delay) /\
  pushed (_animate_step self) = pushed self /\
  log (_animate_step self) = log self.
Proof.
  intros (t & Ht & Hpc) Hflag. unfold _animate_step.
  rewrite Ht, Hpc, Hflag. repeat split. auto with thread.
Qed.

Lemma step_AtFor_cons (self : OLEDDisplay) (frames : list Image)
      (frame : Image) (rest : list Image) (delay : Q) :
  at_pc self (AtFor frames (frame :: rest) delay) ->
  at_pc (_animate_step self) (AtSleep frames rest delay) /\
  pushed (_animate_step self) = pushed self ++ [frame] /\
  log (_animate_step self) = log self.
Proof.
  intros (t & Ht & Hpc). unfold _animate_step.
  rewrite Ht, Hpc. repeat split. auto with thread.
Qed.

Lemma step_AtFor_nil (self : OLEDDisplay) (frames : list Image) (delay : Q) :
  at_pc self (AtFor frames [] delay) ->
  (at_pc (_animate_step self) Exited \/
   at_pc (_animate_step self) (AtWhile frames delay)) /\
  pushed (_animate_step self) = pushed self /\
  log (_animate_step self) = log self.
Proof.
  intros (t & Ht & Hpc). unfold _animate_step.
  rewrite Ht, Hpc.
  destruct (loop t); cbn [negb]; repeat split; auto with thread.
Qed.

Lemma step_AtSleep (self : OLEDDisplay) (frames rest : list Image) (delay : Q) :
  at_pc self (AtSleep frames rest delay) ->
  at_pc (_animate_step self) Exited \/
  at_pc (_animate_step self) (AtFor frames rest delay).
Proof.
  intros (t & Ht & Hpc). unfold _animate_step.
  rewrite Ht, Hpc. destruct (time_sleep delay); auto with thread.
Qed.

Lemma step_AtSleep_ok (self : OLEDDisplay) (frames rest : list Image)
      (delay : Q) :
  at_pc self (AtSleep frames rest delay) -> Qle_bool 0 delay = true ->
  at_pc (_animate_step self) (AtFor frames rest delay) /\
  pushed (_animate_step self) = pushed self /\
  log (_animate_step self) = log self.
Proof.
  intros (t & Ht & Hpc) Hdelay. unfold _animate_step.
  rewrite Ht, Hpc. unfold time_sleep. rewrite Hdelay.
  repeat split. auto with thread.
Qed.

Lemma run_AtFor_nil_down (self : OLEDDisplay) (frames : list Image) (delay : Q) :
  at_pc self (AtFor frames [] delay) -> is_animating self = false ->
  at_pc (run 2 self) Exited /\
  pushed (run 2 self) = pushed self /\
  log (run 2 self) = log self.
Proof.
  intros Hat Hflag. cbn [run].
  destruct (step_AtFor_nil Hat) as ([Hex | Hw] & Hpush & Hlog).
  - rewrite step_Exited by exact Hex. auto.
  - destruct (step_AtWhile_down Hw) as (Hex & Hpush' & Hlog').
    + rewrite step_is_animating. exact Hflag.
    + rewrite Hpush', Hlog'. auto.
Qed.

(** With the flag down, a thread inside a pass still pushes every
    frame the pass has left, and only then leaves. *)
Lemma run_AtFor_down (frames : list Image) (delay : Q) (rest : list Image) :
  Qle_bool 0 delay = true ->
  forall self,
    at_pc self (AtFor frames rest delay) -> is_animating self = false ->
    at_pc (run (2 * length rest + 2) self) Exited /\
    pushed (run (2 * length rest + 2) self) = pushed self ++ rest /\
    log (run (2 * length rest + 2) self) = log self.
Proof.
  intros Hdelay. induction rest as [| frame rest IH]; intros self Hat Hflag.
  - cbn [length Nat.mul Nat.add]. rewrite app_nil_r.
    eapply run_AtFor_nil_down; eassumption.
  - replace (2 * length (frame :: rest) + 2)%nat
      with (S (S (2 * length rest + 2))) by (cbn [length]; lia).
    cbn [run].
    destruct (step_AtFor_cons Hat) as (Hs & Hpush1 & Hlog1).
    destruct (step_AtSleep_ok Hs Hdelay) as (Hf & Hpush2 & Hlog2).
    destruct (IH _ Hf) as (Hex & Hpush & Hlog).
    + rewrite !step_is_animating. exact Hflag.
    + split; [ exact Hex | ]. split.
      * rewrite Hpush, Hpush2, Hpush1, <- app_assoc. reflexivity.
      * rewrite Hlog, Hlog2, Hlog1. reflexivity.
Qed.

(** Whatever the delay, a thread inside a pass leaves within the
    steps [join] gives it once the flag is down. *)
Lemma run_AtFor_exits (frames : list Image) (delay : Q) (rest : list Image) :
  forall self,
    at_pc self (AtFor frames rest delay) -> is_animating self = false ->
    at_pc (run (2 * length rest + 2) self) Exited.
Proof.
  induction rest as [| frame rest IH]; intros self Hat Hflag.
  - eapply run_AtFor_nil_down; eassumption.
  - replace (2 * length (frame :: rest) + 2)%nat
      with (S (S (2 * length rest + 2))) by (cbn [length]; lia).
    cbn [run].
    destruct (step_AtFor_cons Hat) as (Hs & _).
    destruct (step_AtSleep Hs) as [Hex | Hf].
    + rewrite run_Exited; exact Hex.
    + apply IH; [ exact Hf | ].
      rewrite !step_is_animating. exact Hflag.
Qed.

Lemma run_AtSleep_exits (frames : list Image) (delay : Q) (rest : list Image)
      (self : OLEDDisplay) :
  at_pc self (AtSleep frames rest delay) -> is_animating self = false ->
  at_pc (run (2 * length rest + 3) self) Exited.
Proof.
  intros Hat Hflag.
  replace (2 * length rest + 3)%nat with (S (2 * length rest + 2)) by lia.
  cbn [run].
  destruct (step_AtSleep Hat) as [Hex | Hf].
  - rewrite run_Exited; exact Hex.
  - apply (run_AtFor_exits Hf). rewrite step_is_animating. exact Hflag.
Qed.

Lemma step_AtStart (self : OLEDDisplay) :
  at_pc self AtStart ->
  at_pc (_animate_step self) Exited \/
  exists frames delay, at_pc (_animate_step self) (AtWhile frames delay).
Proof.
  intros (t & Ht & Hpc). unfold _animate_step. rewrite Ht, Hpc.
  unfold _animate_prepare.
  destruct (delay_of (fps t)); [ | left; auto with thread ].
  destruct (find_frames self (animation_name t)) as [[[| f fs] |] |];
    try (left; solve [auto with thread]).
  right. eexists. eexists. auto with thread.
Qed.

(** [join] returns: with the flag down the thread has left [_animate]
    by the time the steps [join] runs are over. *)
Lemma join_exits (self : OLEDDisplay) (t : Thread) :
  current_thread self = Some t -> is_animating self = false ->
  at_pc (join self) Exited.
Proof.
  intros Ht Hflag. unfold join. rewrite Ht.
  destruct (pc t) as [| frames delay | frames rest delay | frames rest delay |]
    eqn:Hpc; cbn [steps_to_exit].
  - assert (Hat : at_pc self AtStart) by (exists t; auto).
    change (run 2 self) with (run 1 (_animate_step self)).
    destruct (step_AtStart Hat) as [Hex | (frames & delay & Hw)].
    + rewrite run_Exited; assumption.
    + cbn [run].
      apply (step_AtWhile_down Hw).
      rewrite step_is_animating. exact Hflag.
  - cbn [run]. apply (@step_AtWhile_down self frames delay);
      [ exists t; auto | exact Hflag ].
  - apply (@run_AtFor_exits frames delay rest); [ exists t; auto | exact Hflag ].
  - apply (@run_AtSleep_exits frames delay rest); [ exists t; auto | exact Hflag ].
  - exists t. auto.
Qed.

(** [stop_animation] with its [join] written out. *)
Lemma stop_animation_eq (self : OLEDDisplay) :
  stop_animation self =
    match current_thread self with
    | Some t =>
        if Thread_is_alive t
        then set_current_thread None
               (run (steps_to_exit (pc t)) (set_is_animating false self))
        else set_is_animating false self
    | None => set_is_animating false self
    end.
Proof.
  unfold stop_animation, join. cbn [current_thread set_is_animating].
  destruct (current_thread self); reflexivity.
Qed.

(** [stop_animation] returns with the flag down and no thread alive,
    whatever the state it is called in. *)
Lemma stop_animation_stops (self : OLEDDisplay) :
  is_animating (stop_animation self) = false /\
  no_thread_alive (stop_animation self).
Proof.
  unfold no_thread_alive. rewrite stop_animation_eq.
  destruct (current_thread self) as [t |] eqn:Ht.
  - destruct (Thread_is_alive t) eqn:Halive.
    + cbn [is_animating current_thread set_current_thread].
      rewrite run_is_animating. split; [ reflexivity | exact I ].
    + cbn [is_animating current_thread set_is_animating].
      rewrite Ht. split; [ reflexivity | exact Halive ].
  - cbn [is_animating current_thread set_is_animating].
    rewrite Ht. split; [ reflexivity | exact I ].
Qed.

(** [stop_animation] touches neither the timers nor the assets. *)
Lemma stop_animation_same_timers (self : OLEDDisplay) :
  timer (stop_animation self) = timer self /\
  timers (stop_animation self) = timers self /\
  assets (stop_animation self) = assets self /\
  width (stop_animation self) = width self /\
  height (stop_animation self) = height self.
Proof.
  rewrite stop_animation_eq.
  destruct (current_thread self) as [t |]; [ | repeat split ].
  destruct (Thread_is_alive t); [ | repeat split ].
  cbn [timer timers assets width height set_current_thread].
  destruct (run_same_controls (steps_to_exit (pc t)) (set_is_animating false self))
    as (Hw & Hh & _ & Ht & Hts & Ha & _).
  rewrite Hw, Hh, Ht, Hts, Ha. repeat split.
Qed.

(** With no thread alive, [stop_animation] only lowers the flag. *)
Lemma stop_animation_idle (self : OLEDDisplay) :
  no_thread_alive self ->
  stop_animation self = set_is_animating false self.
Proof.
  unfold no_thread_alive. intros H. rewrite stop_animation_eq.
  destruct (current_thread self) as [t |]; [ | reflexivity ].
  rewrite H. reflexivity.
Qed.

(* ----------------------------------------------------------------- *)
(** *** Centering and inversion                                       *)
(* ----------------------------------------------------------------- *)

(** [_center_image] reads nothing of the controller but the size of
    its panel. *)
Lemma _center_image_ext (a b : OLEDDisplay) (img : Image) :
  width a = width b -> height a = height b ->
  _center_image a img = _center_image b img.
Proof. unfold _center_image. intros -> ->. reflexivity. Qed.

Lemma _center_image_size (self : OLEDDisplay) (img : Image) :
  img_size (_center_image self img) = (width self, height self).
Proof. reflexivity. Qed.

Lemma _center_image_wf (self : OLEDDisplay) (img : Image) :
  0 <= width self -> 0 <= height self -> wf_image (_center_image self img).
Proof.
  intros Hw Hh. unfold _center_image. cbn [img_size].
  apply paste_wf, Image_new_wf; assumption.
Qed.

Lemma _center_image_getpixel (self : OLEDDisplay) (img : Image) (i j : Z) :
  0 <= width self -> 0 <= height self -> wf_image img ->
  0 <= i < width self -> 0 <= j < height self ->
  getpixel (_center_image self img) i j =
    if covered self img i j
    then getpixel img (i - (width self - img_width img) / 2)
                      (j - (height self - img_height img) / 2)
    else false.
Proof.
  intros Hw Hh Himg Hi Hj. unfold _center_image, covered. cbn [img_size].
  rewrite paste_getpixel;
    [ | apply Image_new_wf; assumption | assumption | exact Hi | exact Hj ].
  rewrite Image_new_getpixel. reflexivity.
Qed.

Lemma invert_wf (img : Image) : wf_image img -> wf_image (invert img).
Proof.
  intros (Hw & Hh & Hlen & Hrows). unfold wf_image, invert. cbn.
  repeat split; try assumption.
  - rewrite length_map. exact Hlen.
  - apply Forall_map. eapply Forall_impl; [ | exact Hrows ].
    cbn. intros r Hr. rewrite length_map. exact Hr.
Qed.

Lemma invert_getpixel (img : Image) (i j : Z) :
  wf_image img -> 0 <= i < img_width img -> 0 <= j < img_height img ->
  getpixel (invert img) i j = negb (getpixel img i j).
Proof.
  intros Himg Hi Hj. pose proof Himg as (_ & _ & Hlen & _).
  unfold getpixel, invert. cbn [img_rows].
  rewrite nth_indep with (d' := map negb [])
    by (rewrite length_map; lia).
  rewrite map_nth.
  rewrite nth_indep with (d' := negb true)
    by (rewrite length_map, wf_image_row by (assumption || lia); lia).
  rewrite map_nth.
  f_equal. apply nth_indep.
  rewrite wf_image_row by (assumption || lia). lia.
Qed.

(** C9: for a source image of any size, smaller or larger than the
    panel, [_center_image] returns a frame of exactly the panel's size
    whose content is the source pasted at the offset
    [((width - img_width) // 2, (height - img_height) // 2)] on a dark
    canvas; the margins left and right of it (above and below) differ
    by one pixel at most. *)
Theorem center_image_display_sized_and_centered
        (self : OLEDDisplay) (img : Image) :
  0 <= width self -> 0 <= height self -> wf_image img ->
  let x := (width self - img_width img) / 2 in
  let y := (height self - img_height img) / 2 in
  img_size (_center_image self img) = (width self, height self) /\
  wf_image (_center_image self img) /\
  (forall i j, 0 <= i < width self -> 0 <= j < height self ->
     getpixel (_center_image self img) i j =
       if (x <=? i) && (i <? x + img_width img)
          && ((y <=? j) && (j <? y + img_height img))
       then getpixel img (i - x) (j - y)
       else false) /\
  0 <= (width self - (x + img_width img)) - x <= 1 /\
  0 <= (height self - (y + img_height img)) - y <= 1.
Proof.
  intros Hw Hh Himg x y.
  split; [ apply _center_image_size | ].
  split; [ apply _center_image_wf; assumption | ].
  split.
  - intros i j Hi Hj.
    apply (_center_image_getpixel self Hw Hh Himg Hi Hj).
  - subst x y.
    pose proof (Z.div_mod (width self - img_width img) 2 ltac:(lia)).
    pose proof (Z.mod_pos_bound (width self - img_width img) 2 ltac:(lia)).
    pose proof (Z.div_mod (height self - img_height img) 2 ltac:(lia)).
    pose proof (Z.mod_pos_bound (height self - img_height img) 2 ltac:(lia)).
    lia.
Qed.

Lemma Demo_square_wf : wf_image Demo.square.
Proof.
  unfold wf_image. cbn. repeat split; try lia.
  repeat constructor.
Qed.

Lemma center_image_display_sized_and_centered_witness :
  img_size (_center_image Demo.fresh Demo.square) = (128, 32) /\
  getpixel (_center_image Demo.fresh Demo.square) 63 15 = true /\
  getpixel (_center_image Demo.fresh Demo.square) 64 15 = false.
Proof.
  assert (Hw : 0 <= width Demo.fresh) by (cbn; lia).
  assert (Hh : 0 <= height Demo.fresh) by (cbn; lia).
  destruct (center_image_display_sized_and_centered
              Demo.fresh Hw Hh Demo_square_wf) as (Hsize & _ & Hpix & _).
  split; [ exact Hsize | ].
  split.
  - rewrite Hpix by (cbn; lia). reflexivity.
  - rewrite Hpix by (cbn; lia). reflexivity.
Defined.

(* ----------------------------------------------------------------- *)
(** *** The flag at the exits of [_animate]                           *)
(* ----------------------------------------------------------------- *)

(** C1 (the code departs from it): the [finally] clause of [_animate]
    is meant to put the keep-running flag down on every exit, but it
    assigns [is_animinating].  On each of the three exit paths -- a
    completed one-shot pass, a missing asset, a caught exception --
    the thread ends while [is_animating] is still up. *)
Theorem animate_exit_leaves_is_animating_up :
  (let self := run 5 (play_animation "blink" false 10 Demo.fresh) in
   current_thread self = Some (mkThread "blink" false 10 Exited) /\
   log self = [] /\
   is_animating self = true /\ is_animinating self = Some false) /\
  (let self := run 1 (play_animation "nowhere" false 10 Demo.fresh) in
   current_thread self = Some (mkThread "nowhere" false 10 Exited) /\
   log self = [Animation_not_found "nowhere"] /\
   is_animating self = true /\ is_animinating self = Some false) /\
  (let self := run 1 (play_animation "blink" false 0 Demo.fresh) in
   current_thread self = Some (mkThread "blink" false 0 Exited) /\
   log self = [Error_in_animation "blink" ZeroDivisionError] /\
   is_animating self = true /\ is_animinating self = Some false).
Proof. vm_compute. repeat split. Qed.

(* ----------------------------------------------------------------- *)
(** *** Timers                                                        *)
(* ----------------------------------------------------------------- *)

Lemma play_animation_same_timers (name : string) (l : bool) (f : Z)
      (self : OLEDDisplay) :
  timer (play_animation name l f self) = timer self /\
  timers (play_animation name l f self) = timers self.
Proof.
  unfold play_animation.
  cbn [timer timers set_current_thread set_is_animating].
  destruct (stop_animation_same_timers self) as (H1 & H2 & _).
  auto.
Qed.

(** C2 (the code departs from it): [display_message],
    [display_static_image] and [clear] cancel the pending timer after
    stopping the animation; [play_animation] stops the animation only.
    A timer armed by [display_message "X" 5 true] is still pending
    after [play_animation "spin"], where each of the three siblings
    leaves none, and when it fires the idle animation replaces
    [spin]. *)
Theorem play_animation_leaves_timer_pending :
  let armed := display_message "X" 5%Q true Demo.fresh in
  let self := play_animation "spin" false 10 armed in
  pending_timers armed = [mkTimer 5%Q call_display_idle Pending] /\
  pending_timers self = [mkTimer 5%Q call_display_idle Pending] /\
  timer self = Some 0%nat /\
  pending_timers (display_message "Y" 0%Q true armed) = [] /\
  pending_timers (display_static_image "ok" armed) = [] /\
  pending_timers (clear armed) = [] /\
  current_thread self = Some (mkThread "spin" false 10 AtStart) /\
  current_thread (fire_timer 0 self) = Some (mkThread "idle" true 2 AtStart).
Proof. vm_compute. repeat split. Qed.

(* ----------------------------------------------------------------- *)
(** *** Arguments of [play_animation]                                 *)
(* ----------------------------------------------------------------- *)

(** C4, as the specification has it, fails: called with an empty name
    and [fps = 0] on a fresh controller, [play_animation] raises the
    flag and starts a thread. *)
Lemma play_animation_invalid_arguments_accepted :
  let self := play_animation "" false 0 Demo.fresh in
  is_animating Demo.fresh = false /\ current_thread Demo.fresh = None /\
  is_animating self = true /\
  current_thread self = Some (mkThread "" false 0 AtStart) /\
  self <> Demo.fresh.
Proof.
  cbv zeta. repeat split.
  intros H. apply (f_equal is_animating) in H. discriminate H.
Qed.

(* ----------------------------------------------------------------- *)
(** *** Arming and cancelling the deferred timer                      *)
(* ----------------------------------------------------------------- *)

Lemma cancel_timer_ext (a b : OLEDDisplay) :
  timer a = timer b -> timers a = timers b ->
  timer (cancel_timer a) = timer (cancel_timer b) /\
  timers (cancel_timer a) = timers (cancel_timer b).
Proof.
  intros Ht Hts. unfold cancel_timer. rewrite <- Ht, <- Hts.
  destruct (timer a) as [i |] eqn:Ei; [ | split; congruence ].
  destruct (nth_error (timers a) i) as [t |]; [ | split; congruence ].
  destruct (Timer_is_alive t); split; cbn; congruence.
Qed.

Lemma cancel_timer_timer (self : OLEDDisplay) :
  timer (cancel_timer self) = timer self.
Proof.
  unfold cancel_timer.
  destruct (timer self) as [i |] eqn:E; [ | exact E ].
  destruct (nth_error (timers self) i) as [t |]; [ | exact E ].
  destruct (Timer_is_alive t); [ | exact E ].
  exact E.
Qed.

Lemma update_nth_length {A : Type} (f : A -> A) (l : list A) (i : nat) :
  length (update_nth i f l) = length l.
Proof.
  revert i. induction l as [| a l IH]; intros [| i]; cbn; auto.
Qed.

Lemma nth_error_update_nth {A : Type} (f : A -> A) (l : list A) (i k : nat) :
  nth_error (update_nth i f l) k =
    if Nat.eqb k i then option_map f (nth_error l k) else nth_error l k.
Proof.
  revert i k. induction l as [| a l IH]; intros i k.
  - destruct i, k; cbn; try reflexivity.
    destruct (Nat.eqb k i); reflexivity.
  - destruct i, k; cbn; try reflexivity. apply IH.
Qed.

Lemma cancel_timer_length (self : OLEDDisplay) :
  length (timers (cancel_timer self)) = length (timers self).
Proof.
  unfold cancel_timer.
  destruct (timer self) as [i |]; [ | reflexivity ].
  destruct (nth_error (timers self) i) as [t |]; [ | reflexivity ].
  destruct (Timer_is_alive t); [ | reflexivity ].
  cbn. apply update_nth_length.
Qed.

Lemma Timer_cancel_not_pending (t : Timer) : status (Timer_cancel t) <> Pending.
Proof. unfold Timer_cancel. destruct (status t) eqn:E; cbn; congruence. Qed.

(** After the cancellation every operation but [play_animation] begins
    with, no timer is left waiting, provided the controller's own
    timer was the only one that could be. *)
Lemma cancel_timer_none_pending (self : OLEDDisplay) :
  timer_inv self -> pending_timers (cancel_timer self) = [].
Proof.
  intros Hinv. unfold pending_timers.
  assert (Hall : forall k t, nth_error (timers (cancel_timer self)) k = Some t ->
                             status t <> Pending).
  { intros k t Hk Hp. unfold cancel_timer in Hk.
    destruct (timer self) as [i |] eqn:Ei.
    - destruct (nth_error (timers self) i) as [ti |] eqn:Eti.
      + destruct (Timer_is_alive ti) eqn:Ealive.
        * cbn in Hk. rewrite nth_error_update_nth in Hk.
          destruct (Nat.eqb_spec k i) as [-> | Hne].
          -- rewrite Eti in Hk. cbn in Hk. inversion Hk; subst t.
             exact (Timer_cancel_not_pending _ Hp).
          -- specialize (Hinv k t Hk Hp). congruence.
        * pose proof (Hinv k t Hk Hp) as E. rewrite Ei in E.
          inversion E; subst k.
          rewrite Eti in Hk. inversion Hk; subst t.
          unfold Timer_is_alive in Ealive. rewrite Hp in Ealive. discriminate.
      + pose proof (Hinv k t Hk Hp) as E. rewrite Ei in E.
        inversion E; subst k. congruence.
    - specialize (Hinv k t Hk Hp). congruence. }
  induction (timers (cancel_timer self)) as [| t ts IH]; [ reflexivity | ].
  cbn [filter].
  destruct (status t) eqn:Est.
  - exfalso. apply (Hall 0%nat t); [ reflexivity | exact Est ].
  - apply IH. intros k t' Hk. apply (Hall (S k) t'). exact Hk.
  - apply IH. intros k t' Hk. apply (Hall (S k) t'). exact Hk.
  - apply IH. intros k t' Hk. apply (Hall (S k) t'). exact Hk.
Qed.

Lemma draw_message_same_timers (message : string) (self : OLEDDisplay) :
  timer (draw_message message self) = timer self /\
  timers (draw_message message self) = timers self.
Proof.
  unfold draw_message. destruct (textbbox (font _) message) as [[[b0 b1] b2] b3].
  split; reflexivity.
Qed.

(** The timers at the point where [display_message] decides about
    arming one. *)
Lemma display_message_before_arming (message : string) (self : OLEDDisplay) :
  let ready := draw_message message (cancel_timer (stop_animation self)) in
  timer ready = timer self /\ timers ready = timers (cancel_timer self).
Proof.
  cbv zeta.
  destruct (draw_message_same_timers message (cancel_timer (stop_animation self)))
    as (-> & ->).
  destruct (stop_animation_same_timers self) as (Ht & Hts & _).
  destruct (cancel_timer_ext _ _ Ht Hts) as (-> & ->).
  split; [ apply cancel_timer_timer | reflexivity ].
Qed.

Lemma display_message_not_positive (message : string) (duration : Q)
      (return_to_idle : bool) (self : OLEDDisplay) :
  Qle_bool duration 0 = true ->
  timer (display_message message duration return_to_idle self) = timer self /\
  timers (display_message message duration return_to_idle self)
    = timers (cancel_timer self).
Proof.
  intros Hd. unfold display_message. rewrite Hd. cbn [negb].
  apply display_message_before_arming.
Qed.

Lemma display_message_positive (message : string) (duration : Q)
      (return_to_idle : bool) (self : OLEDDisplay) :
  Qle_bool duration 0 = false ->
  timer (display_message message duration return_to_idle self)
    = Some (length (timers self)) /\
  timers (display_message message duration return_to_idle self)
    = timers (cancel_timer self)
        ++ [mkTimer duration
              (if return_to_idle then call_display_idle else call_clear)
              Pending].
Proof.
  intros Hd. unfold display_message. rewrite Hd. cbn [negb].
  destruct (display_message_before_arming message self) as (Ht & Hts).
  destruct return_to_idle; unfold start_timer;
    cbn [timer timers set_timer set_timers];
    rewrite Hts, cancel_timer_length; split; reflexivity.
Qed.

Lemma pending_timers_app (self : OLEDDisplay) (old new : list Timer) :
  timers self = old ++ new ->
  pending_timers self =
    filter (fun t => match status t with Pending => true | _ => false end) old
    ++ filter (fun t => match status t with Pending => true | _ => false end) new.
Proof. intros H. unfold pending_timers. rewrite H. apply filter_app. Qed.

(** C5: [display_message] with [duration = 0] arms no deferred action:
    the timers are those that were there, the pending one cancelled.
    With [duration > 0] it arms exactly one, which becomes the
    controller's timer, set to [duration] and to call [display_idle]
    when [return_to_idle] is true and [clear] when it is false; where
    at most the controller's own timer was waiting before, the new one
    is afterwards the only one waiting. *)
Theorem display_message_arms_timer
        (message : string) (duration : Q) (return_to_idle : bool)
        (self : OLEDDisplay) :
  let after := display_message message duration return_to_idle self in
  let callback := if return_to_idle then call_display_idle else call_clear in
  ((duration == 0)%Q ->
     timers after = timers (cancel_timer self) /\
     timer after = timer self /\
     length (timers after) = length (timers self) /\
     (timer_inv self -> pending_timers after = [])) /\
  ((0 < duration)%Q ->
     timers after
       = timers (cancel_timer self) ++ [mkTimer duration callback Pending] /\
     timer after = Some (length (timers self)) /\
     length (timers after) = S (length (timers self)) /\
     (timer_inv self ->
        pending_timers after = [mkTimer duration callback Pending])).
Proof.
  cbv zeta. split.
  - intros Hd.
    assert (Hb : Qle_bool duration 0 = true)
      by (apply Qle_bool_iff; rewrite Hd; apply Qle_refl).
    destruct (display_message_not_positive message duration return_to_idle self Hb)
      as (Ht & Hts).
    split; [ exact Hts | ]. split; [ exact Ht | ].
    split; [ rewrite Hts; apply cancel_timer_length | ].
    intros Hinv. unfold pending_timers. rewrite Hts.
    apply (cancel_timer_none_pending Hinv).
  - intros Hd.
    assert (Hb : Qle_bool duration 0 = false).
    { destruct (Qle_bool duration 0) eqn:E; [ | reflexivity ].
      apply Qle_bool_iff in E. exfalso. exact (Qlt_not_le _ _ Hd E). }
    destruct (display_message_positive message duration return_to_idle self Hb)
      as (Ht & Hts).
    split; [ exact Hts | ]. split; [ exact Ht | ].
    split.
    + rewrite Hts, length_app, cancel_timer_length. cbn. lia.
    + intros Hinv. rewrite (@pending_timers_app _ _ _ Hts).
      fold (pending_timers (cancel_timer self)).
      rewrite (cancel_timer_none_pending Hinv). reflexivity.
Qed.

Lemma Demo_fresh_timer_inv : timer_inv Demo.fresh.
Proof. intros [| i] t H; discriminate H. Qed.

Lemma display_message_arms_timer_witness :
  pending_timers (display_message "OK" 0%Q true Demo.fresh) = [] /\
  pending_timers (display_message "OK" 1%Q true Demo.fresh)
    = [mkTimer 1%Q call_display_idle Pending] /\
  pending_timers (display_message "OK" 1%Q false Demo.fresh)
    = [mkTimer 1%Q call_clear Pending].
Proof.
  split; [ | split ].
  - destruct (display_message_arms_timer "OK" 0%Q true Demo.fresh)
      as (H0 & _).
    destruct (H0 (Qeq_refl 0%Q)) as (_ & _ & _ & Hp).
    exact (Hp Demo_fresh_timer_inv).
  - destruct (display_message_arms_timer "OK" 1%Q true Demo.fresh)
      as (_ & H1).
    destruct (H1 (eq_refl : (0 < 1)%Q)) as (_ & _ & _ & Hp).
    exact (Hp Demo_fresh_timer_inv).
  - destruct (display_message_arms_timer "OK" 1%Q false Demo.fresh)
      as (_ & H1).
    destruct (H1 (eq_refl : (0 < 1)%Q)) as (_ & _ & _ & Hp).
    exact (Hp Demo_fresh_timer_inv).
Defined.

(* ----------------------------------------------------------------- *)
(** *** Default arguments                                             *)
(* ----------------------------------------------------------------- *)

(** C10: a call of [play_animation] without the optional arguments
    runs with [loop = False] and [fps = 10]; a call of
    [display_message] without them runs with [duration = 0] and
    [return_to_idle = True], and so arms no timer. *)
Theorem default_arguments :
  (forall (name : string) (self : OLEDDisplay),
     play_animation_call name None None self
       = play_animation name false 10 self) /\
  (forall (message : string) (self : OLEDDisplay),
     display_message_call message None None self
       = display_message message 0%Q true self) /\
  (forall (message : string) (self : OLEDDisplay),
     timers (display_message_call message None None self)
       = timers (cancel_timer self) /\
     timer (display_message_call message None None self) = timer self /\
     length (timers (display_message_call message None None self))
       = length (timers self)).
Proof.
  split; [ reflexivity | ]. split; [ reflexivity | ].
  intros message self. unfold display_message_call.
  destruct (@display_message_not_positive message 0%Q true self eq_refl)
    as (Ht & Hts).
  rewrite Hts, Ht, cancel_timer_length. repeat split.
Qed.

(* ----------------------------------------------------------------- *)
(** *** Resolving assets                                              *)
(* ----------------------------------------------------------------- *)

(** Cancelling the timer changes nothing but the timers. *)
Lemma cancel_timer_same (self : OLEDDisplay) :
  display (cancel_timer self) = display self /\
  log (cancel_timer self) = log self /\
  assets (cancel_timer self) = assets self /\
  width (cancel_timer self) = width self /\
  height (cancel_timer self) = height self /\
  current_thread (cancel_timer self) = current_thread self.
Proof.
  unfold cancel_timer.
  destruct (timer self) as [i |]; [ | repeat split ].
  destruct (nth_error (timers self) i) as [t |]; [ | repeat split ].
  destruct (Timer_is_alive t); repeat split.
Qed.

Lemma find_image_ext (a b : OLEDDisplay) (image_name : string) :
  assets a = assets b -> find_image a image_name = find_image b image_name.
Proof. unfold find_image. intros ->. reflexivity. Qed.

(** The state in which [display_static_image] looks for its image. *)
Lemma display_static_image_prepared (self : OLEDDisplay) :
  let ready := cancel_timer (stop_animation self) in
  display ready = display (stop_animation self) /\
  log ready = log (stop_animation self) /\
  assets ready = assets self /\
  width ready = width self /\ height ready = height self.
Proof.
  cbv zeta.
  destruct (cancel_timer_same (stop_animation self))
    as (Hd & Hl & Ha & Hw & Hh & _).
  destruct (stop_animation_same_timers self) as (_ & _ & Ha' & Hw' & Hh').
  repeat split; congruence.
Qed.

Lemma find_frames_ext (a b : OLEDDisplay) (name : string) :
  assets a = assets b -> width a = width b -> height a = height b ->
  find_frames a name = find_frames b name.
Proof.
  intros Ha Hw Hh. unfold find_frames. rewrite Ha.
  assert (Hload : forall files, load_frames a files = load_frames b files).
  { induction files as [| [n c] files IH]; cbn [load_frames]; [ reflexivity | ].
    destruct (Image_open c); cbn [bind]; [ | reflexivity ].
    rewrite IH, (_center_image_ext a b a0 Hw Hh). reflexivity. }
  destruct (user_animations_path (assets b) name); [ rewrite Hload; reflexivity | ].
  destruct (package_animations_path (assets b) name);
    [ rewrite Hload; reflexivity | reflexivity ].
Qed.

(* ----------------------------------------------------------------- *)
(** *** Stopping an animation inside a pass                           *)
(* ----------------------------------------------------------------- *)

Lemma at_pc_set_is_animating (b : bool) (self : OLEDDisplay) (p : PC) :
  at_pc self p -> at_pc (set_is_animating b self) p.
Proof. intros (t & Ht & Hpc). exists t. split; assumption. Qed.

Lemma stop_animation_at (self : OLEDDisplay) (p : PC) :
  at_pc self p -> p <> Exited ->
  stop_animation self
    = set_current_thread None
        (run (steps_to_exit p) (set_is_animating false self)).
Proof.
  intros (t & Ht & Hpc) Hp. rewrite stop_animation_eq, Ht.
  unfold Thread_is_alive. rewrite Hpc.
  destruct p; congruence.
Qed.

Lemma _animate_step_pass_inv (self : OLEDDisplay) :
  pass_inv self -> pass_inv (_animate_step self).
Proof.
  unfold pass_inv, _animate_step.
  destruct (current_thread self) as [t |] eqn:Ht; [ | rewrite Ht; auto ].
  destruct (pc t) as [| frames delay | frames [| frame rest] delay
                      | frames rest delay |] eqn:Hpc.
  - intros _. unfold _animate_prepare.
    destruct (delay_of (fps t)); [ | exact I ].
    destruct (find_frames self (animation_name t)) as [[[| f fs] |] |];
      exact I.
  - intros _. destruct (is_animating self); cbn; [ exists []; reflexivity | exact I ].
  - intros _. destruct (loop t); exact I.
  - intros (done & Hdone). cbn. exists (done ++ [frame]).
    rewrite <- app_assoc. exact Hdone.
  - intros H. destruct (time_sleep delay); cbn; [ exact H | exact I ].
  - rewrite Ht, Hpc. auto.
Qed.

Lemma run_pass_inv (n : nat) (self : OLEDDisplay) :
  pass_inv self -> pass_inv (run n self).
Proof.
  revert self. induction n as [| n IH]; intros self H; cbn [run];
    [ exact H | ].
  apply IH, _animate_step_pass_inv, H.
Qed.

(** Every state the thread reaches after [play_animation] keeps the
    rest of the pass a tail of the frame list. *)
Lemma play_animation_pass_inv (name : string) (l : bool) (f : Z) (n : nat)
      (self : OLEDDisplay) :
  pass_inv (run n (play_animation name l f self)).
Proof. apply run_pass_inv. exact I. Qed.

(** C3, as the specification has it, fails.  The three-frame
    animation [spin] has pushed its first frame and sleeps when the
    flag goes down; the thread pushes the second frame none the less,
    and [stop_animation] returns only after the third: two frames
    after the one in flight. *)
Lemma stop_animation_waits_for_rest_of_pass :
  let playing := run 3 (play_animation "spin" true 10 Demo.fresh) in
  let lowered := set_is_animating false playing in
  pushed playing
    = [Image_new 128 32; _center_image Demo.fresh Demo.dot] /\
  is_animating lowered = false /\
  pushed (run 2 lowered)
    = pushed lowered ++ [_center_image Demo.fresh Demo.bar] /\
  pushed (stop_animation playing)
    = pushed playing ++ [_center_image Demo.fresh Demo.bar;
                         _center_image Demo.fresh Demo.square] /\
  ~ (length (pushed (stop_animation playing)) <= length (pushed playing) + 1)%nat.
Proof.
  cbv zeta. repeat split; try (vm_compute; reflexivity).
  vm_compute. intros H. repeat (apply le_S_n in H). inversion H.
Qed.

(** C3, amended: the loop reads the keep-running flag once per pass,
    at the head of the [while], not before each frame.  When
    [stop_animation] lowers the flag inside a pass of a loop whose
    delay is not negative, every frame the pass has left is still
    pushed -- at most the [n] frames of the animation -- and only then
    does the loop leave and [stop_animation] return; a loop standing
    at the head of the [while] leaves without a push. *)
Theorem stop_animation_finishes_pass
        (self : OLEDDisplay) (frames rest : list Image) (delay : Q) :
  (0 <= delay)%Q ->
  (at_pc self (AtWhile frames delay) ->
     pushed (stop_animation self) = pushed self) /\
  (at_pc self (AtFor frames rest delay) \/
   at_pc self (AtSleep frames rest delay) ->
     pushed (stop_animation self) = pushed self ++ rest /\
     (pass_inv self -> (length rest <= length frames)%nat)) /\
  is_animating (stop_animation self) = false /\
  no_thread_alive (stop_animation self).
Proof.
  intros Hdelay. apply Qle_bool_iff in Hdelay.
  split; [ | split; [ | apply stop_animation_stops ] ].
  - intros Hat.
    rewrite (@stop_animation_at self _ Hat) by discriminate.
    cbn [steps_to_exit run].
    destruct (@step_AtWhile_down (set_is_animating false self) frames delay)
      as (_ & Hpush & _);
      [ apply at_pc_set_is_animating, Hat | reflexivity | ].
    exact Hpush.
  - intros [Hat | Hat]; split.
    + rewrite (@stop_animation_at self _ Hat) by discriminate.
      cbn [steps_to_exit].
      destruct (@run_AtFor_down frames delay rest Hdelay
                  (set_is_animating false self))
        as (_ & Hpush & _);
        [ apply at_pc_set_is_animating, Hat | reflexivity | ].
      exact Hpush.
    + unfold pass_inv. destruct Hat as (t & -> & ->).
      intros (done & ->). rewrite length_app. lia.
    + rewrite (@stop_animation_at self _ Hat) by discriminate.
      cbn [steps_to_exit].
      replace (2 * length rest + 3)%nat with (S (2 * length rest + 2)) by lia.
      cbn [run].
      destruct (@step_AtSleep_ok (set_is_animating false self) frames rest delay)
        as (Hfor & Hpush1 & _);
        [ apply at_pc_set_is_animating, Hat | exact Hdelay | ].
      destruct (@run_AtFor_down frames delay rest Hdelay
                  (_animate_step (set_is_animating false self)))
        as (_ & Hpush & _);
        [ exact Hfor | rewrite step_is_animating; reflexivity | ].
      change (pushed (set_current_thread None ?s)) with (pushed s).
      rewrite Hpush, Hpush1. reflexivity.
    + unfold pass_inv. destruct Hat as (t & -> & ->).
      intros (done & ->). rewrite length_app. lia.
Qed.

Lemma stop_animation_finishes_pass_witness :
  let playing := run 3 (play_animation "spin" true 10 Demo.fresh) in
  pushed (stop_animation playing)
    = pushed playing ++ [_center_image Demo.fresh Demo.bar;
                         _center_image Demo.fresh Demo.square].
Proof.
  cbv zeta.
  assert (Hdelay : (0 <= / inject_Z 10)%Q) by (vm_compute; discriminate).
  destruct (@stop_animation_finishes_pass
              (run 3 (play_animation "spin" true 10 Demo.fresh))
              [_center_image Demo.fresh Demo.dot;
               _center_image Demo.fresh Demo.bar;
               _center_image Demo.fresh Demo.square]
              [_center_image Demo.fresh Demo.bar;
               _center_image Demo.fresh Demo.square]
              (/ inject_Z 10)%Q Hdelay) as (_ & Hpass & _).
  apply Hpass. right.
  eexists. split; vm_compute; reflexivity.
Defined.

(* ----------------------------------------------------------------- *)
(** *** What reaches the panel: frames and stills                     *)
(* ----------------------------------------------------------------- *)

Lemma insert_sorted_In (entry x : string * FileContent) (l : Directory) :
  In x (insert_sorted entry l) -> x = entry \/ In x l.
Proof.
  induction l as [| h t IH]; cbn [insert_sorted].
  - intros [<- | []]. left. reflexivity.
  - destruct (String.leb (fst entry) (fst h)).
    + intros [<- | H]; [ left; reflexivity | right; exact H ].
    + intros [<- | H]; [ right; left; reflexivity | ].
      destruct (IH H) as [-> | Hin]; [ left; reflexivity | right; right; exact Hin ].
Qed.

Lemma sorted_In (x : string * FileContent) (l : Directory) :
  In x (sorted l) -> In x l.
Proof.
  induction l as [| h t IH]; cbn [sorted fold_right]; [ auto | ].
  intros H. apply insert_sorted_In in H.
  destruct H as [-> | H]; [ left; reflexivity | right; apply IH, H ].
Qed.

Lemma glob_bmp_In (x : string * FileContent) (dir : Directory) :
  In x (glob_bmp dir) -> In x dir.
Proof. unfold glob_bmp. intros H. apply filter_In in H. apply H. Qed.

(** What the loading loop returns: the files decoded in order, each
    centered and nothing else. *)
Lemma load_frames_Ok (self : OLEDDisplay) (files : Directory) :
  forall frames,
    load_frames self files = Ok frames ->
    exists imgs,
      map snd files = map Bitmap imgs /\
      frames = map (_center_image self) imgs.
Proof.
  induction files as [| [name c] files IH]; intros frames H;
    cbn [load_frames] in H.
  - inversion H. exists []. split; reflexivity.
  - destruct c as [img |]; cbn [Image_open bind] in H; [ | discriminate H ].
    destruct (load_frames self files) as [frames' |]; cbn [bind] in H;
      [ | discriminate H ].
    inversion H; subst frames.
    destruct (IH frames' eq_refl) as (imgs & Hfiles & ->).
    exists (img :: imgs). cbn [map snd]. rewrite Hfiles. split; reflexivity.
Qed.

Lemma load_frames_sources (self : OLEDDisplay) (dir : Directory)
      (frames : list Image) :
  load_frames self (sorted (glob_bmp dir)) = Ok frames ->
  Forall (fun frame => exists file img,
            In (file, Bitmap img) dir /\ frame = _center_image self img)
         frames.
Proof.
  intros H.
  assert (Hgen : forall files frames,
             load_frames self files = Ok frames ->
             Forall (fun frame => exists file img,
                       In (file, Bitmap img) files /\
                       frame = _center_image self img) frames).
  { induction files as [| [name c] files IH]; intros fs Hfs;
      cbn [load_frames] in Hfs.
    - inversion Hfs. constructor.
    - destruct c as [img |]; cbn [Image_open bind] in Hfs; [ | discriminate Hfs ].
      destruct (load_frames self files) as [frames' |]; cbn [bind] in Hfs;
        [ | discriminate Hfs ].
      inversion Hfs; subst fs. constructor.
      + exists name, img. split; [ left; reflexivity | reflexivity ].
      + eapply Forall_impl; [ | apply IH; reflexivity ].
        cbn. intros frame (file & img' & Hin & ->).
        exists file, img'. split; [ right; exact Hin | reflexivity ]. }
  eapply Forall_impl; [ | apply (Hgen _ _ H) ].
  cbn. intros frame (file & img & Hin & ->).
  exists file, img. split; [ | reflexivity ].
  apply glob_bmp_In, sorted_In, Hin.
Qed.

Lemma find_frames_sources (self : OLEDDisplay) (name : string)
      (frames : list Image) :
  find_frames self name = Ok (Some frames) ->
  Forall (centered_source self name) frames.
Proof.
  unfold find_frames, centered_source. intros H.
  destruct (user_animations_path (assets self) name) as [udir |] eqn:Eu.
  - destruct (load_frames self (sorted (glob_bmp udir))) as [fs |] eqn:El;
      cbn [bind] in H; [ | discriminate H ].
    inversion H; subst fs.
    eapply Forall_impl; [ | apply (load_frames_sources _ _ El) ].
    cbn. intros frame (file & img & Hin & ->).
    exists udir, file, img. auto.
  - destruct (package_animations_path (assets self) name) as [pdir |] eqn:Ep;
      [ | discriminate H ].
    destruct (load_frames self (sorted (glob_bmp pdir))) as [fs |] eqn:El;
      cbn [bind] in H; [ | discriminate H ].
    inversion H; subst fs.
    eapply Forall_impl; [ | apply (load_frames_sources _ _ El) ].
    cbn. intros frame (file & img & Hin & ->).
    exists pdir, file, img. auto.
Qed.

Section ThreadFrames.
Variable P : Image -> Prop.

(** A step of the thread pushes nothing, or one of the frames it
    holds. *)
Lemma _animate_step_thread_frames (self : OLEDDisplay) :
  thread_frames P self ->
  thread_frames P (_animate_step self) /\
  exists extra,
    pushed (_animate_step self) = pushed self ++ extra /\ Forall P extra.
Proof.
  unfold thread_frames, _animate_step.
  destruct (current_thread self) as [t |] eqn:Ht.
  2:{ rewrite Ht. intros _. split; [ exact I | ].
      exists []. rewrite app_nil_r. auto. }
  destruct (pc t) as [| frames delay | frames [| frame rest] delay
                      | frames rest delay |] eqn:Hpc.
  - intros H. unfold _animate_prepare.
    destruct (delay_of (fps t)).
    2:{ split; [ exact I | ]. exists []. rewrite app_nil_r. auto. }
    destruct (find_frames self (animation_name t)) as [[[| f fs] |] |] eqn:Ef;
      (split; [ | exists []; rewrite app_nil_r; auto ]); try exact I.
    cbn. apply H. reflexivity.
  - intros H. destruct (is_animating self);
      (split; [ | exists []; rewrite app_nil_r; auto ]);
      cbn; auto.
  - intros (H & _). destruct (loop t);
      (split; [ | exists []; rewrite app_nil_r; auto ]);
      cbn; auto.
  - intros (H & Hrest). inversion Hrest; subst. split.
    + cbn. auto.
    + exists [frame]. split; [ reflexivity | auto ].
  - intros H. destruct (time_sleep delay);
      (split; [ | exists []; rewrite app_nil_r; auto ]);
      cbn; auto.
  - rewrite Ht, Hpc. intros _. split; [ exact I | ].
    exists []. rewrite app_nil_r. auto.
Qed.

Lemma run_thread_frames (n : nat) (self : OLEDDisplay) :
  thread_frames P self ->
  exists extra, pushed (run n self) = pushed self ++ extra /\ Forall P extra.
Proof.
  revert self. induction n as [| n IH]; intros self H; cbn [run].
  - exists []. rewrite app_nil_r. auto.
  - destruct (_animate_step_thread_frames self H) as (H' & e1 & Hp1 & HP1).
    destruct (IH _ H') as (e2 & Hp2 & HP2).
    exists (e1 ++ e2). rewrite Hp2, Hp1, app_assoc.
    split; [ reflexivity | apply Forall_app; auto ].
Qed.
End ThreadFrames.

Lemma play_animation_same_assets (name : string) (l : bool) (f : Z)
      (self : OLEDDisplay) :
  assets (play_animation name l f self) = assets self /\
  width (play_animation name l f self) = width self /\
  height (play_animation name l f self) = height self /\
  pushed (play_animation name l f self) = pushed (stop_animation self).
Proof.
  unfold play_animation.
  destruct (stop_animation_same_timers self) as (_ & _ & Ha & Hw & Hh).
  repeat split; assumption.
Qed.

Lemma run_add (a b : nat) (self : OLEDDisplay) :
  run (a + b) self = run b (run a self).
Proof.
  revert self. induction a as [| a IH]; intros self; cbn [run Nat.add];
    [ reflexivity | apply IH ].
Qed.

(** A whole pass with a delay that is not negative: every frame left
    is pushed, in order. *)
Lemma run_pass (frames : list Image) (delay : Q) (rest : list Image) :
  Qle_bool 0 delay = true ->
  forall self,
    at_pc self (AtFor frames rest delay) ->
    at_pc (run (2 * length rest) self) (AtFor frames [] delay) /\
    pushed (run (2 * length rest) self) = pushed self ++ rest /\
    log (run (2 * length rest) self) = log self.
Proof.
  intros Hdelay. induction rest as [| frame rest IH]; intros self Hat.
  - cbn. rewrite app_nil_r. auto.
  - replace (2 * length (frame :: rest))%nat
      with (S (S (2 * length rest))) by (cbn [length]; lia).
    cbn [run].
    destruct (step_AtFor_cons Hat) as (Hs & Hpush1 & Hlog1).
    destruct (step_AtSleep_ok Hs Hdelay) as (Hf & Hpush2 & Hlog2).
    destruct (IH _ Hf) as (Hex & Hpush & Hlog).
    split; [ exact Hex | ]. split.
    + rewrite Hpush, Hpush2, Hpush1, <- app_assoc. reflexivity.
    + rewrite Hlog, Hlog2, Hlog1. reflexivity.
Qed.

(** The delay of an [fps] that is neither zero nor out of the range
    of floats. *)
Lemma delay_of_Ok (f : Z) :
  f <> 0 -> Z.abs f < float_limit -> delay_of f = Ok (/ inject_Z f)%Q.
Proof.
  intros Hf Hlim. unfold delay_of.
  destruct (Z.eqb_spec f 0) as [E | _]; [ contradiction | ].
  destruct (Z.leb_spec float_limit (Z.abs f)) as [E | _]; [ lia | ].
  reflexivity.
Qed.

Lemma step_AtStart_frames (self : OLEDDisplay) (t : Thread)
      (frames : list Image) :
  current_thread self = Some t -> pc t = AtStart ->
  fps t <> 0 -> Z.abs (fps t) < float_limit ->
  find_frames self (animation_name t) = Ok (Some frames) -> frames <> [] ->
  at_pc (_animate_step self) (AtWhile frames (/ inject_Z (fps t))%Q) /\
  pushed (_animate_step self) = pushed self /\
  log (_animate_step self) = log self.
Proof.
  intros Ht Hpc Hfps Hlim Hfind Hne. unfold _animate_step.
  rewrite Ht, Hpc. unfold _animate_prepare.
  rewrite (delay_of_Ok Hfps Hlim).
  rewrite Hfind. destruct frames as [| f fs]; [ contradiction | ].
  repeat split. auto with thread.
Qed.

Lemma delay_not_negative (f : Z) : 0 < f -> Qle_bool 0 (/ inject_Z f)%Q = true.
Proof.
  intros H. apply Qle_bool_iff, Qinv_le_0_compat.
  unfold Qle. cbn. lia.
Qed.

(** C8: the inversion is applied to stills and never to animation
    frames.  Every frame an animation thread pushes, however long it
    runs, is the centered decoding of a file of the animation's
    directory, and a one-shot animation whose [fps] is positive and
    within the range of floats pushes exactly its loaded frames in
    order; a still is pushed as the centered inverse of its decoded
    source.  Pixel by pixel, inside the area the source
    covers, an animation frame equals its source and a still is the
    negation of its source. *)
Theorem inversion_for_stills_only :
  (forall (self : OLEDDisplay) (name : string) (l : bool) (f : Z) (n : nat),
     exists extra,
       pushed (run n (play_animation name l f self))
         = pushed (stop_animation self) ++ extra /\
       Forall (centered_source self name) extra) /\
  (forall (self : OLEDDisplay) (name : string) (f : Z) (frames : list Image),
     0 < f -> f < float_limit -> frames <> [] ->
     find_frames self name = Ok (Some frames) ->
     Forall (centered_source self name) frames /\
     pushed (run (2 * length frames + 3) (play_animation name false f self))
       = pushed (stop_animation self) ++ frames) /\
  (forall (self : OLEDDisplay) (name : string) (img : Image),
     find_image self name = Ok (Some img) ->
     pushed (display_static_image name self)
       = pushed (stop_animation self) ++ [_center_image self (invert img)]) /\
  (forall (self : OLEDDisplay) (img : Image) (i j : Z),
     0 <= width self -> 0 <= height self -> wf_image img ->
     0 <= i < width self -> 0 <= j < height self ->
     covered self img i j = true ->
     let x := (width self - img_width img) / 2 in
     let y := (height self - img_height img) / 2 in
     getpixel (_center_image self img) i j = getpixel img (i - x) (j - y) /\
     getpixel (_center_image self (invert img)) i j
       = negb (getpixel img (i - x) (j - y))).
Proof.
  split; [ | split; [ | split ] ].
  - intros self name l f n.
    destruct (play_animation_same_assets name l f self) as (Ha & Hw & Hh & Hp).
    rewrite <- Hp. apply run_thread_frames.
    unfold thread_frames. cbn [play_animation current_thread set_current_thread
                                 pc animation_name].
    intros frames Hfind.
    rewrite (find_frames_ext (play_animation name l f self) self name Ha Hw Hh)
      in Hfind.
    apply find_frames_sources, Hfind.
  - intros self name f frames Hf Hlim Hne Hfind.
    split; [ apply find_frames_sources, Hfind | ].
    destruct (play_animation_same_assets name false f self) as (Ha & Hw & Hh & Hp).
    set (started := play_animation name false f self) in *.
    assert (Hfind' : find_frames started name = Ok (Some frames))
      by (rewrite (find_frames_ext started self name Ha Hw Hh); exact Hfind).
    destruct (@step_AtStart_frames started (mkThread name false f AtStart) frames)
      as (Hwhile & Hpush1 & _);
      [ reflexivity | reflexivity | cbn [fps]; lia | cbn [fps]; lia
      | exact Hfind' | exact Hne | ].
    cbn [fps] in Hwhile.
    destruct (step_AtWhile_up Hwhile) as (Hfor & Hpush2 & _);
      [ rewrite step_is_animating; reflexivity | ].
    destruct (run_pass (delay_not_negative Hf) Hfor) as (Hend & Hpush3 & _).
    destruct (step_AtFor_nil Hend) as (_ & Hpush4 & _).
    replace (2 * length frames + 3)%nat
      with (S (S (2 * length frames + 1))) by lia.
    cbn [run]. rewrite run_add. cbn [run].
    rewrite Hpush4, Hpush3, Hpush2, Hpush1, Hp. reflexivity.
  - intros self name img Hfind.
    destruct (display_static_image_prepared self) as (Hd & _ & Ha & Hw & Hh).
    unfold display_static_image.
    rewrite (find_image_ext _ self name Ha), Hfind.
    unfold pushed, push. cbn [display set_display Device_show Device_image
                                shown buffer].
    rewrite Hd, (_center_image_ext _ self (invert img) Hw Hh). reflexivity.
  - intros self img i j Hw Hh Himg Hi Hj Hcov. cbv zeta.
    rewrite (_center_image_getpixel self Hw Hh Himg Hi Hj), Hcov.
    rewrite (_center_image_getpixel self Hw Hh (invert_wf Himg) Hi Hj).
    change (covered self (invert img) i j) with (covered self img i j).
    rewrite Hcov. cbn [invert img_width img_height].
    split; [ reflexivity | ].
    unfold covered in Hcov.
    apply andb_true_iff in Hcov. destruct Hcov as [Hx Hy].
    apply andb_true_iff in Hx. destruct Hx as [Hx1 Hx2].
    apply andb_true_iff in Hy. destruct Hy as [Hy1 Hy2].
    apply Z.leb_le in Hx1, Hy1. apply Z.ltb_lt in Hx2, Hy2.
    apply (invert_getpixel Himg); lia.
Qed.

Lemma inversion_for_stills_only_witness :
  pushed (run 9 (play_animation "spin" false 10 Demo.fresh))
    = pushed Demo.fresh ++ [_center_image Demo.fresh Demo.dot;
                            _center_image Demo.fresh Demo.bar;
                            _center_image Demo.fresh Demo.square] /\
  pushed (display_static_image "ok" Demo.fresh)
    = pushed Demo.fresh ++ [_center_image Demo.fresh (invert Demo.square)] /\
  getpixel (_center_image Demo.fresh Demo.square) 63 15 = true /\
  getpixel (_center_image Demo.fresh (invert Demo.square)) 63 15 = false.
Proof.
  destruct inversion_for_stills_only as (_ & Hshot & Hstill & Hpix).
  split; [ | split ].
  - assert (Hpos : 0 < 10) by lia.
    assert (Hlim : 10 < float_limit) by (vm_compute; reflexivity).
    assert (Hne : [_center_image Demo.fresh Demo.dot;
                   _center_image Demo.fresh Demo.bar;
                   _center_image Demo.fresh Demo.square] <> [])
      by discriminate.
    exact (proj2 (Hshot Demo.fresh "spin"%string 10 _ Hpos Hlim Hne eq_refl)).
  - exact (Hstill Demo.fresh "ok"%string Demo.square eq_refl).
  - assert (Hw : 0 <= width Demo.fresh) by (cbn; lia).
    assert (Hh : 0 <= height Demo.fresh) by (cbn; lia).
    assert (Hi : 0 <= 63 < width Demo.fresh) by (cbn; lia).
    assert (Hj : 0 <= 15 < height Demo.fresh) by (cbn; lia).
    destruct (Hpix Demo.fresh Demo.square 63 15 Hw Hh Demo_square_wf Hi Hj eq_refl)
      as (Hframe & Hinv).
    split; [ rewrite Hframe | rewrite Hinv ]; reflexivity.
Defined.

(* ----------------------------------------------------------------- *)
(** *** Joining the running animation                                 *)
(* ----------------------------------------------------------------- *)

(** With a thread alive, [stop_animation] returns the state in which
    that thread, stepped with the flag down, has left [_animate], less
    the handle. *)
Lemma stop_animation_joins (self : OLEDDisplay) (t : Thread) :
  current_thread self = Some t -> Thread_is_alive t = true ->
  at_pc (run (steps_to_exit (pc t)) (set_is_animating false self)) Exited /\
  stop_animation self
    = set_current_thread None
        (run (steps_to_exit (pc t)) (set_is_animating false self)).
Proof.
  intros Ht Halive. split.
  - assert (H : current_thread (set_is_animating false self) = Some t)
      by exact Ht.
    pose proof (join_exits _ H eq_refl) as Hex.
    unfold join in Hex. rewrite H in Hex. exact Hex.
  - rewrite stop_animation_eq, Ht, Halive. reflexivity.
Qed.

(** Stopped inside a pass, the thread pushes what the pass had left
    and logs nothing. *)
Lemma stop_animation_in_pass (self : OLEDDisplay) (frames rest : list Image)
      (delay : Q) :
  Qle_bool 0 delay = true ->
  at_pc self (AtFor frames rest delay) \/
  at_pc self (AtSleep frames rest delay) ->
  pushed (stop_animation self) = pushed self ++ rest /\
  log (stop_animation self) = log self.
Proof.
  intros Hdelay [Hat | Hat].
  - rewrite (@stop_animation_at self _ Hat) by discriminate.
    cbn [steps_to_exit].
    destruct (@run_AtFor_down frames delay rest Hdelay
                (set_is_animating false self))
      as (_ & Hpush & Hlog);
      [ apply at_pc_set_is_animating, Hat | reflexivity | ].
    split; [ exact Hpush | exact Hlog ].
  - rewrite (@stop_animation_at self _ Hat) by discriminate.
    cbn [steps_to_exit].
    replace (2 * length rest + 3)%nat with (S (2 * length rest + 2)) by lia.
    cbn [run].
    destruct (@step_AtSleep_ok (set_is_animating false self) frames rest delay)
      as (Hfor & Hpush1 & Hlog1);
      [ apply at_pc_set_is_animating, Hat | exact Hdelay | ].
    destruct (@run_AtFor_down frames delay rest Hdelay
                (_animate_step (set_is_animating false self)))
      as (_ & Hpush & Hlog);
      [ exact Hfor | rewrite step_is_animating; reflexivity | ].
    change (pushed (set_current_thread None ?s)) with (pushed s).
    change (log (set_current_thread None ?s)) with (log s).
    rewrite Hpush, Hpush1, Hlog, Hlog1. split; reflexivity.
Qed.

Lemma float_limit_positive : 0 < float_limit.
Proof. vm_compute. reflexivity. Qed.

Lemma delay_of_overflow (f : Z) :
  float_limit <= Z.abs f -> delay_of f = Raise OverflowError.
Proof.
  intros Hlim. pose proof float_limit_positive as Hpos. unfold delay_of.
  destruct (Z.eqb_spec f 0) as [E | _]; [ subst f; cbn in Hlim; lia | ].
  destruct (Z.leb_spec float_limit (Z.abs f)) as [_ | E]; [ reflexivity | lia ].
Qed.

(** C4, amended: [play_animation] checks none of its arguments.  For
    every name and every [fps], an empty name and [fps <= 0] included,
    it first stops the running animation -- a thread that was alive
    has been stepped to its exit with the flag down, and panel and log
    are those it left -- then raises the flag and starts a thread at
    the head of [_animate].  With [fps = 0], or an [fps] beyond the
    range of floats, the failure comes in that thread: its first step
    catches the arithmetic error, logs it and leaves without a
    push. *)
Theorem play_animation_validates_nothing :
  forall (name : string) (l : bool) (f : Z) (self : OLEDDisplay),
    let started := play_animation name l f self in
    (is_animating started = true /\
     current_thread started = Some (mkThread name l f AtStart)) /\
    (forall t, current_thread self = Some t -> Thread_is_alive t = true ->
       let joined := run (steps_to_exit (pc t)) (set_is_animating false self) in
       at_pc joined Exited /\
       display started = display joined /\ log started = log joined) /\
    (forall frames rest delay,
       (0 <= delay)%Q ->
       at_pc self (AtFor frames rest delay) \/
       at_pc self (AtSleep frames rest delay) ->
       pushed started = pushed self ++ rest /\ log started = log self) /\
    (no_thread_alive self ->
       display started = display self /\ log started = log self) /\
    (let failed := _animate_step (play_animation name l 0 self) in
     current_thread failed = Some (mkThread name l 0 Exited) /\
     log failed = log (play_animation name l 0 self)
                    ++ [Error_in_animation name ZeroDivisionError] /\
     pushed failed = pushed (play_animation name l 0 self)) /\
    (float_limit <= Z.abs f ->
     let failed := _animate_step started in
     current_thread failed = Some (mkThread name l f Exited) /\
     log failed = log started ++ [Error_in_animation name OverflowError] /\
     pushed failed = pushed started).
Proof.
  intros name l f self. cbv zeta.
  split; [ split; reflexivity | ].
  split; [ | split; [ | split; [ | split ] ] ].
  - intros t Ht Halive.
    destruct (stop_animation_joins self Ht Halive) as (Hex & Hstop).
    split; [ exact Hex | ].
    unfold play_animation.
    cbn [display log set_current_thread set_is_animating].
    rewrite Hstop. split; reflexivity.
  - intros frames rest delay Hdelay Hpass.
    apply Qle_bool_iff in Hdelay.
    exact (@stop_animation_in_pass self frames rest delay Hdelay Hpass).
  - intros Hidle. unfold play_animation.
    cbn [display log set_current_thread set_is_animating].
    rewrite (stop_animation_idle self Hidle). split; reflexivity.
  - unfold play_animation, _animate_step.
    cbn [current_thread set_current_thread pc].
    unfold _animate_prepare. cbn [fps delay_of Z.eqb].
    repeat split.
  - intros Hlim. unfold _animate_step.
    cbn [play_animation current_thread set_current_thread pc].
    unfold _animate_prepare. cbn [fps]. rewrite (delay_of_overflow f Hlim).
    repeat split.
Qed.

Lemma play_animation_validates_nothing_witness :
  let playing := run 3 (play_animation "spin" true 10 Demo.fresh) in
  pushed (play_animation "" false 0 playing)
    = pushed playing ++ [_center_image Demo.fresh Demo.bar;
                         _center_image Demo.fresh Demo.square] /\
  log (_animate_step (play_animation "spin" false (10 ^ 400) Demo.fresh))
    = [Error_in_animation "spin" OverflowError].
Proof.
  cbv zeta. split.
  - destruct (play_animation_validates_nothing "" false 0
                (run 3 (play_animation "spin" true 10 Demo.fresh)))
      as (_ & _ & Hpass & _).
    assert (Hdelay : (0 <= / inject_Z 10)%Q) by (vm_compute; discriminate).
    apply (Hpass [_center_image Demo.fresh Demo.dot;
                  _center_image Demo.fresh Demo.bar;
                  _center_image Demo.fresh Demo.square]
                 [_center_image Demo.fresh Demo.bar;
                  _center_image Demo.fresh Demo.square]
                 (/ inject_Z 10)%Q Hdelay).
    right. eexists. split; vm_compute; reflexivity.
  - destruct (play_animation_validates_nothing "spin" false (10 ^ 400)
                Demo.fresh) as (_ & _ & _ & _ & _ & Hover).
    assert (Hlim : float_limit <= Z.abs (10 ^ 400))
      by (vm_compute; discriminate).
    exact (proj1 (proj2 (Hover Hlim))).
Defined.

(* ----------------------------------------------------------------- *)
(** *** A still that is nowhere                                       *)
(* ----------------------------------------------------------------- *)

(** C6, as the specification has it, fails.  The looping animation
    [spin] has pushed its first frame when [display_static_image] is
    called with a name that is nowhere: the call stops the animation,
    whose thread still pushes the two frames its pass had left, so the
    panel shows another frame after the call than before. *)
Lemma display_static_image_missing_changes_panel :
  let playing := run 3 (play_animation "spin" true 10 Demo.fresh) in
  let after := display_static_image "missing" playing in
  user_icons_path (assets playing) "missing.bmp" = None /\
  package_icons_path (assets playing) "missing.bmp" = None /\
  visible (display playing) = _center_image Demo.fresh Demo.dot /\
  visible (display after) = _center_image Demo.fresh Demo.square /\
  pushed after = pushed playing ++ [_center_image Demo.fresh Demo.bar;
                                    _center_image Demo.fresh Demo.square] /\
  visible (display after) <> visible (display playing).
Proof.
  cbv zeta. repeat split; try (vm_compute; reflexivity).
  intros H. apply (f_equal (fun img => getpixel img 64 16)) in H.
  vm_compute in H. discriminate H.
Qed.

(** C6, amended: when [image_name] is found neither among the user's
    icons nor among the packaged ones, [display_static_image] itself
    sends nothing to the panel and logs exactly one error: device and
    log are those the stopping of the animation left, plus that one
    record.  With no animation thread alive at the call the panel is
    untouched; with an animation stopped inside a pass, the frames
    that pass had left are still pushed by its thread, and nothing
    else. *)
Theorem display_static_image_missing_adds_nothing
        (image_name : string) (self : OLEDDisplay) :
  user_icons_path (assets self) (image_name ++ ".bmp") = None ->
  package_icons_path (assets self) (image_name ++ ".bmp") = None ->
  let after := display_static_image image_name self in
  (display after = display (stop_animation self) /\
   log after = log (stop_animation self) ++ [Image_not_found image_name]) /\
  (no_thread_alive self ->
     display after = display self /\
     visible (display after) = visible (display self) /\
     log after = log self ++ [Image_not_found image_name]) /\
  (forall t, current_thread self = Some t -> Thread_is_alive t = true ->
     let joined := run (steps_to_exit (pc t)) (set_is_animating false self) in
     at_pc joined Exited /\
     display after = display joined /\
     log after = log joined ++ [Image_not_found image_name]) /\
  (forall frames rest delay,
     (0 <= delay)%Q ->
     at_pc self (AtFor frames rest delay) \/
     at_pc self (AtSleep frames rest delay) ->
     pushed after = pushed self ++ rest /\
     log after = log self ++ [Image_not_found image_name]).
Proof.
  intros Huser Hpkg. cbv zeta.
  destruct (display_static_image_prepared self) as (Hd & Hl & Ha & _).
  assert (Hfind : find_image (cancel_timer (stop_animation self)) image_name
                  = Ok None).
  { rewrite (find_image_ext _ self image_name Ha).
    unfold find_image. rewrite Huser, Hpkg. reflexivity. }
  assert (Hafter :
            display (display_static_image image_name self)
              = display (stop_animation self) /\
            log (display_static_image image_name self)
              = log (stop_animation self) ++ [Image_not_found image_name]).
  { unfold display_static_image. rewrite Hfind.
    cbn [display log logging_error]. rewrite Hd, Hl. split; reflexivity. }
  destruct Hafter as (Hdisplay & Hlog).
  split; [ split; assumption | ].
  split; [ | split ].
  - intros Hidle. rewrite Hdisplay, Hlog, (stop_animation_idle self Hidle).
    repeat split.
  - intros t Ht Halive.
    destruct (stop_animation_joins self Ht Halive) as (Hex & Hstop).
    split; [ exact Hex | ].
    rewrite Hdisplay, Hlog, Hstop. split; reflexivity.
  - intros frames rest delay Hdelay Hpass.
    apply Qle_bool_iff in Hdelay.
    destruct (@stop_animation_in_pass self frames rest delay Hdelay Hpass) as (Hpush & Hlog').
    unfold pushed in *. rewrite Hdisplay, Hlog, Hpush, Hlog'.
    split; reflexivity.
Qed.

Lemma display_static_image_missing_adds_nothing_witness :
  (let shown_message := display_message "OK" 0%Q true Demo.fresh in
   let after := display_static_image "missing" shown_message in
   visible (display after) = visible (display shown_message) /\
   log after = [Image_not_found "missing"]) /\
  (let playing := run 3 (play_animation "spin" true 10 Demo.fresh) in
   let after := display_static_image "missing" playing in
   pushed after = pushed playing ++ [_center_image Demo.fresh Demo.bar;
                                     _center_image Demo.fresh Demo.square] /\
   log after = [Image_not_found "missing"]).
Proof.
  cbv zeta. split.
  - destruct (@display_static_image_missing_adds_nothing "missing"
                (display_message "OK" 0%Q true Demo.fresh) eq_refl eq_refl)
      as (_ & Hidle & _).
    destruct (Hidle I) as (_ & Hvis & Hlog).
    split; [ exact Hvis | exact Hlog ].
  - destruct (@display_static_image_missing_adds_nothing "missing"
                (run 3 (play_animation "spin" true 10 Demo.fresh))
                eq_refl eq_refl)
      as (_ & _ & _ & Hpass).
    assert (Hdelay : (0 <= / inject_Z 10)%Q) by (vm_compute; discriminate).
    apply (Hpass [_center_image Demo.fresh Demo.dot;
                  _center_image Demo.fresh Demo.bar;
                  _center_image Demo.fresh Demo.square]
                 [_center_image Demo.fresh Demo.bar;
                  _center_image Demo.fresh Demo.square]
                 (/ inject_Z 10)%Q Hdelay).
    right. eexists. split; vm_compute; reflexivity.
Defined.

(* ----------------------------------------------------------------- *)
(** *** User assets before packaged ones                              *)
(* ----------------------------------------------------------------- *)






Lemma cancel_timer_set_assets (a' : Assets) (self : OLEDDisplay) :
  cancel_timer (set_assets a' self) = set_assets a' (cancel_timer self).
Proof.
  unfold cancel_timer. cbn [timer timers set_assets].
  destruct (timer self) as [i |]; [ | reflexivity ].
  destruct (nth_error (timers self) i) as [t |]; [ | reflexivity ].
  destruct (Timer_is_alive t); reflexivity.
Qed.





(* ----------------------------------------------------------------- *)
(** *** The join inside [stop_animation], and the timer invariant     *)
(* ----------------------------------------------------------------- *)

(** The steps [stop_animation] waits for are enough: when it drops the
    handle, the thread it joined has left [_animate]. *)
Lemma stop_animation_joined (self : OLEDDisplay) (t : Thread) :
  current_thread self = Some t ->
  at_pc (run (steps_to_exit (pc t)) (set_is_animating false self)) Exited.
Proof.
  intros Ht.
  assert (H : current_thread (set_is_animating false self) = Some t)
    by exact Ht.
  pose proof (join_exits _ H eq_refl) as Hex.
  unfold join in Hex. rewrite H in Hex. exact Hex.
Qed.

Lemma timer_inv_ext (a b : OLEDDisplay) :
  timer a = timer b -> timers a = timers b -> timer_inv b -> timer_inv a.
Proof. unfold timer_inv. intros -> ->. auto. Qed.

Lemma timer_inv_init (f : Font) (a : Assets) : timer_inv (OLEDDisplay_init f a).
Proof. intros [| i] t H; discriminate H. Qed.

Lemma timer_inv_step (self : OLEDDisplay) :
  timer_inv self -> timer_inv (_animate_step self).
Proof.
  destruct (_animate_step_same_controls self) as (_ & _ & _ & Ht & Hts & _).
  apply timer_inv_ext; assumption.
Qed.

Lemma timer_inv_stop_animation (self : OLEDDisplay) :
  timer_inv self -> timer_inv (stop_animation self).
Proof.
  destruct (stop_animation_same_timers self) as (Ht & Hts & _).
  apply timer_inv_ext; assumption.
Qed.

Lemma timer_inv_play_animation (name : string) (l : bool) (f : Z)
      (self : OLEDDisplay) :
  timer_inv self -> timer_inv (play_animation name l f self).
Proof.
  destruct (play_animation_same_timers name l f self) as (Ht & Hts).
  apply timer_inv_ext; assumption.
Qed.

Lemma pending_timers_nil (self : OLEDDisplay) :
  pending_timers self = [] ->
  forall i t, nth_error (timers self) i = Some t -> status t <> Pending.
Proof.
  unfold pending_timers. intros Hnil i t Hi Hp.
  apply nth_error_In in Hi.
  assert (Hin : In t (filter (fun t => match status t with
                                       | Pending => true
                                       | _ => false
                                       end) (timers self)))
    by (apply filter_In; split; [ exact Hi | rewrite Hp; reflexivity ]).
  rewrite Hnil in Hin. exact Hin.
Qed.

Lemma timer_inv_cancel_timer (self : OLEDDisplay) :
  timer_inv self -> timer_inv (cancel_timer self).
Proof.
  intros Hinv i t Hi Hp. exfalso.
  exact (pending_timers_nil _ (cancel_timer_none_pending Hinv) i Hi Hp).
Qed.

(** [display_message] keeps the invariant: the timer it arms becomes
    the controller's own. *)
Lemma timer_inv_display_message (message : string) (duration : Q)
      (return_to_idle : bool) (self : OLEDDisplay) :
  timer_inv self ->
  timer_inv (display_message message duration return_to_idle self).
Proof.
  intros Hinv.
  destruct (Qle_bool duration 0) eqn:Hd.
  - destruct (display_message_not_positive message duration return_to_idle
                self Hd) as (Ht & Hts).
    intros i t Hi Hp. exfalso. rewrite Hts in Hi.
    exact (pending_timers_nil _ (cancel_timer_none_pending Hinv) i Hi Hp).
  - destruct (display_message_positive message duration return_to_idle
                self Hd) as (Ht & Hts).
    intros i t Hi Hp. rewrite Ht, Hts in *.
    destruct (Nat.lt_ge_cases i (length (timers (cancel_timer self))))
      as [Hlt | Hge].
    + rewrite nth_error_app1 in Hi by exact Hlt. exfalso.
      exact (pending_timers_nil _ (cancel_timer_none_pending Hinv) i Hi Hp).
    + rewrite nth_error_app2 in Hi by exact Hge.
      rewrite cancel_timer_length in *.
      destruct (i - length (timers self))%nat as [| k] eqn:Ek.
      * f_equal. lia.
      * destruct k; discriminate Hi.
Qed.

Lemma timer_inv_clear (self : OLEDDisplay) :
  timer_inv self -> timer_inv (clear self).
Proof.
  intros Hinv. unfold clear.
  apply timer_inv_ext with (b := cancel_timer (stop_animation self));
    [ reflexivity | reflexivity | ].
  apply timer_inv_cancel_timer, timer_inv_stop_animation, Hinv.
Qed.

Lemma timer_inv_display_static_image (image_name : string)
      (self : OLEDDisplay) :
  timer_inv self -> timer_inv (display_static_image image_name self).
Proof.
  intros Hinv. unfold display_static_image.
  apply timer_inv_ext with (b := cancel_timer (stop_animation self)).
  - destruct (find_image _ image_name) as [[img |] |]; reflexivity.
  - destruct (find_image _ image_name) as [[img |] |]; reflexivity.
  - apply timer_inv_cancel_timer, timer_inv_stop_animation, Hinv.
Qed.

(* ================================================================= *)
(** * Further properties of the controller                            *)
(* ================================================================= *)

(* ----------------------------------------------------------------- *)
(** *** Stopping                                                      *)
(* ----------------------------------------------------------------- *)

Lemma set_is_animating_same (self : OLEDDisplay) :
  is_animating self = false -> set_is_animating false self = self.
Proof. destruct self. cbn. intros ->. reflexivity. Qed.

(** X1: [stop_animation] returns with the flag down and no thread
    alive, whatever it was called on, and not by dropping the handle
    alone: a thread that was alive has been stepped, with the flag
    down, until it left [_animate], and the state returned is the one
    it left; stopped inside a pass it has still pushed the frames the
    pass had left.  Called again [stop_animation] changes nothing, and
    on a controller with no thread alive it leaves panel, log and
    timers as they were. *)
Theorem stop_animation_idempotent (self : OLEDDisplay) :
  is_animating (stop_animation self) = false /\
  no_thread_alive (stop_animation self) /\
  stop_animation (stop_animation self) = stop_animation self /\
  (no_thread_alive self ->
     display (stop_animation self) = display self /\
     log (stop_animation self) = log self /\
     timers (stop_animation self) = timers self /\
     current_thread (stop_animation self) = current_thread self) /\
  (forall t, current_thread self = Some t -> Thread_is_alive t = true ->
     let joined := run (steps_to_exit (pc t)) (set_is_animating false self) in
     at_pc joined Exited /\
     stop_animation self = set_current_thread None joined) /\
  (forall frames rest delay,
     (0 <= delay)%Q ->
     at_pc self (AtFor frames rest delay) \/
     at_pc self (AtSleep frames rest delay) ->
     pushed (stop_animation self) = pushed self ++ rest /\
     log (stop_animation self) = log self).
Proof.
  destruct (stop_animation_stops self) as (Hflag & Hdead).
  split; [ exact Hflag | ]. split; [ exact Hdead | ].
  split; [ | split; [ | split ] ].
  - rewrite (stop_animation_idle (stop_animation self) Hdead).
    apply set_is_animating_same, Hflag.
  - intros Hidle. rewrite (stop_animation_idle self Hidle).
    repeat split.
  - intros t Ht Halive. exact (stop_animation_joins self Ht Halive).
  - intros frames rest delay Hdelay Hpass.
    apply Qle_bool_iff in Hdelay.
    exact (@stop_animation_in_pass self frames rest delay Hdelay Hpass).
Qed.

Lemma stop_animation_idempotent_witness :
  let playing := run 3 (play_animation "spin" true 10 Demo.fresh) in
  pushed (stop_animation playing)
    = pushed playing ++ [_center_image Demo.fresh Demo.bar;
                         _center_image Demo.fresh Demo.square] /\
  log (stop_animation playing) = [].
Proof.
  cbv zeta.
  destruct (stop_animation_idempotent
              (run 3 (play_animation "spin" true 10 Demo.fresh)))
    as (_ & _ & _ & _ & _ & Hpass).
  assert (Hdelay : (0 <= / inject_Z 10)%Q) by (vm_compute; discriminate).
  apply (Hpass [_center_image Demo.fresh Demo.dot;
                _center_image Demo.fresh Demo.bar;
                _center_image Demo.fresh Demo.square]
               [_center_image Demo.fresh Demo.bar;
                _center_image Demo.fresh Demo.square]
               (/ inject_Z 10)%Q Hdelay).
  right. eexists. split; vm_compute; reflexivity.
Defined.

Lemma cancel_timer_flag (self : OLEDDisplay) :
  is_animating (cancel_timer self) = is_animating self.
Proof.
  unfold cancel_timer.
  destruct (timer self) as [i |]; [ | reflexivity ].
  destruct (nth_error (timers self) i) as [t |]; [ | reflexivity ].
  destruct (Timer_is_alive t); reflexivity.
Qed.

(** What the drawing operations do after their first two lines keeps
    flag and thread as [stop_animation] left them. *)
Lemma stopped_and_cancelled (self : OLEDDisplay) :
  is_animating (cancel_timer (stop_animation self)) = false /\
  no_thread_alive (cancel_timer (stop_animation self)).
Proof.
  destruct (stop_animation_stops self) as (Hflag & Hdead).
  destruct (cancel_timer_same (stop_animation self))
    as (_ & _ & _ & _ & _ & Hthread).
  split.
  - rewrite cancel_timer_flag. exact Hflag.
  - unfold no_thread_alive in *. rewrite Hthread. exact Hdead.
Qed.

(** What each drawing operation sends to the panel, after what
    [stop_animation] left there. *)
Lemma drawing_operations_push (self : OLEDDisplay) :
  (forall message duration return_to_idle,
     exists frame,
       pushed (display_message message duration return_to_idle self)
         = pushed (stop_animation self) ++ [frame]) /\
  (forall image_name,
     exists extra,
       pushed (display_static_image image_name self)
         = pushed (stop_animation self) ++ extra /\
       (length extra <= 1)%nat) /\
  (exists blank,
     pushed (clear self) = pushed (stop_animation self) ++ [blank]).
Proof.
  destruct (cancel_timer_same (stop_animation self)) as (Hd & _).
  split; [ | split ].
  - intros message duration return_to_idle.
    unfold display_message, draw_message.
    destruct (textbbox _ message) as [[[b0 b1] b2] b3].
    eexists.
    destruct (negb (Qle_bool duration 0)); [ destruct return_to_idle | ];
      unfold pushed, push, start_timer;
      cbn [display set_display set_image set_timer set_timers Device_show
             Device_image shown buffer];
      rewrite Hd; reflexivity.
  - intros image_name. unfold display_static_image.
    destruct (find_image _ image_name) as [[img |] | e].
    + eexists. unfold pushed, push.
      cbn [display set_display Device_show Device_image shown buffer].
      rewrite Hd. split; [ reflexivity | cbn; lia ].
    + exists []. unfold pushed. cbn [display logging_error].
      rewrite Hd, app_nil_r. split; [ reflexivity | cbn; lia ].
    + exists []. unfold pushed. cbn [display logging_error].
      rewrite Hd, app_nil_r. split; [ reflexivity | cbn; lia ].
  - eexists. unfold clear, pushed.
    cbn [display set_display Device_show Device_fill0 shown buffer].
    rewrite Hd. reflexivity.
Qed.

(** X2: [display_message], [display_static_image] and [clear] leave no
    animation behind.  Each returns with the flag down and no
    animation thread alive; a thread that was alive at the call has
    been stepped, with the flag down, until it left [_animate], and
    what the operation sends to the panel -- one frame for a message
    and for [clear], at most one for a still -- comes after everything
    that thread pushed. *)
Theorem drawing_operations_end_animation (self : OLEDDisplay) :
  (forall message duration return_to_idle,
     let after := display_message message duration return_to_idle self in
     is_animating after = false /\ no_thread_alive after) /\
  (forall image_name,
     let after := display_static_image image_name self in
     is_animating after = false /\ no_thread_alive after) /\
  (let after := clear self in
   is_animating after = false /\ no_thread_alive after) /\
  (forall t, current_thread self = Some t -> Thread_is_alive t = true ->
     let joined := run (steps_to_exit (pc t)) (set_is_animating false self) in
     at_pc joined Exited /\
     (forall message duration return_to_idle,
        exists frame,
          pushed (display_message message duration return_to_idle self)
            = pushed joined ++ [frame]) /\
     (forall image_name,
        exists extra,
          pushed (display_static_image image_name self)
            = pushed joined ++ extra /\
          (length extra <= 1)%nat) /\
     (exists blank, pushed (clear self) = pushed joined ++ [blank])).
Proof.
  destruct (stopped_and_cancelled self) as (Hflag & Hdead).
  split; [ | split; [ | split ] ].
  - intros message duration return_to_idle. cbv zeta.
    unfold display_message, draw_message.
    destruct (textbbox _ message) as [[[b0 b1] b2] b3].
    destruct (negb (Qle_bool duration 0)); [ destruct return_to_idle | ];
      split; assumption.
  - intros image_name. cbv zeta. unfold display_static_image.
    destruct (find_image _ image_name) as [[img |] |]; split; assumption.
  - cbv zeta. unfold clear. split; assumption.
  - intros t Ht Halive. cbv zeta.
    destruct (stop_animation_joins self Ht Halive) as (Hex & Hstop).
    split; [ exact Hex | ].
    assert (Hpushed : pushed (stop_animation self)
                      = pushed (run (steps_to_exit (pc t))
                                    (set_is_animating false self)))
      by (rewrite Hstop; reflexivity).
    rewrite <- Hpushed. apply drawing_operations_push.
Qed.

Lemma drawing_operations_end_animation_witness :
  let playing := run 3 (play_animation "spin" true 10 Demo.fresh) in
  exists blank,
    pushed (clear playing)
      = pushed (run 7 (set_is_animating false playing)) ++ [blank].
Proof.
  cbv zeta.
  destruct (drawing_operations_end_animation
              (run 3 (play_animation "spin" true 10 Demo.fresh)))
    as (_ & _ & _ & Hjoin).
  destruct (Hjoin _ eq_refl eq_refl) as (_ & _ & _ & Hclear).
  exact Hclear.
Defined.

(** X3: [clear] sends exactly one frame, all dark, after whatever the
    stopped animation still pushed; the panel then shows no lit pixel,
    and where at most the controller's own timer was waiting, none
    is. *)
Theorem clear_darkens_panel (self : OLEDDisplay) :
  (exists blank,
     pushed (clear self) = pushed (stop_animation self) ++ [blank] /\
     visible (display (clear self)) = blank /\
     forall i j, getpixel blank i j = false) /\
  log (clear self) = log (stop_animation self) /\
  (timer_inv self -> pending_timers (clear self) = []).
Proof.
  destruct (cancel_timer_same (stop_animation self))
    as (Hd & Hl & _).
  split; [ | split ].
  - eexists. unfold clear, pushed, visible.
    cbn [display set_display Device_show Device_fill0 shown buffer].
    rewrite Hd. split; [ reflexivity | ]. split.
    + apply last_last.
    + apply Image_new_getpixel.
  - unfold clear. cbn [log set_display]. exact Hl.
  - intros Hinv. unfold clear, pending_timers. cbn [timers set_display].
    apply (cancel_timer_none_pending (timer_inv_stop_animation Hinv)).
Qed.

Lemma clear_darkens_panel_witness :
  pending_timers (clear (display_message "OK" 5%Q false Demo.fresh)) = [].
Proof.
  destruct (clear_darkens_panel (display_message "OK" 5%Q false Demo.fresh))
    as (_ & _ & Hp).
  apply Hp.
  apply timer_inv_display_message, Demo_fresh_timer_inv.
Defined.

(* ----------------------------------------------------------------- *)
(** *** Timers over whole histories                                   *)
(* ----------------------------------------------------------------- *)

Lemma all_settled_timer_inv (self : OLEDDisplay) :
  all_settled self -> timer_inv self.
Proof. intros H i t Hi Hp. exfalso. exact (H i t Hi Hp). Qed.

Lemma all_settled_pending (self : OLEDDisplay) :
  all_settled self <-> pending_timers self = [].
Proof.
  split; [ | intros H i t; apply (pending_timers_nil self H) ].
  unfold all_settled, pending_timers. intros H.
  induction (timers self) as [| t ts IH]; [ reflexivity | ].
  cbn [filter]. destruct (status t) eqn:Est.
  - exfalso. exact (H 0%nat t eq_refl Est).
  - apply IH. intros k t' Hk. exact (H (S k) t' Hk).
  - apply IH. intros k t' Hk. exact (H (S k) t' Hk).
  - apply IH. intros k t' Hk. exact (H (S k) t' Hk).
Qed.

(** Overwriting one timer with a status other than [Pending] keeps the
    invariant. *)
Lemma timer_inv_update_nth (g : Timer -> Timer) (i : nat) (self : OLEDDisplay) :
  (forall t, status (g t) <> Pending) ->
  timer_inv self ->
  timer_inv (set_timers (update_nth i g (timers self)) self).
Proof.
  intros Hg Hinv k t Hk Hp.
  cbn [timers timer set_timers] in *.
  rewrite nth_error_update_nth in Hk.
  destruct (Nat.eqb_spec k i) as [-> | Hne].
  - destruct (nth_error (timers self) i) as [t0 |]; [ | discriminate Hk ].
    cbn in Hk. inversion Hk; subst t. exfalso. exact (Hg t0 Hp).
  - exact (Hinv k t Hk Hp).
Qed.

Lemma timer_inv_display_idle (self : OLEDDisplay) :
  timer_inv self -> timer_inv (display_idle self).
Proof. apply timer_inv_play_animation. Qed.

Lemma timer_inv_fire_timer (i : nat) (self : OLEDDisplay) :
  timer_inv self -> timer_inv (fire_timer i self).
Proof.
  intros Hinv. unfold fire_timer.
  destruct (nth_error (timers self) i) as [t |]; [ | exact Hinv ].
  destruct (status t); try exact Hinv.
  apply timer_inv_update_nth; [ intros t0; cbn; discriminate | ].
  destruct (function t).
  - apply timer_inv_display_idle, timer_inv_update_nth;
      [ intros t0; cbn; discriminate | exact Hinv ].
  - apply timer_inv_clear, timer_inv_update_nth;
      [ intros t0; cbn; discriminate | exact Hinv ].
Qed.

Lemma timer_inv_perform (e : Event) (self : OLEDDisplay) :
  timer_inv self -> timer_inv (perform e self).
Proof.
  destruct e; cbn [perform].
  - apply timer_inv_play_animation.
  - apply timer_inv_display_message.
  - apply timer_inv_display_static_image.
  - apply timer_inv_display_idle.
  - apply timer_inv_clear.
  - apply timer_inv_stop_animation.
  - apply timer_inv_step.
  - apply timer_inv_fire_timer.
Qed.

(** Under the invariant at most one timer waits. *)
Lemma timer_inv_at_most_one (self : OLEDDisplay) :
  timer_inv self -> (length (pending_timers self) <= 1)%nat.
Proof.
  unfold timer_inv, pending_timers.
  generalize (timer self) as own. induction (timers self) as [| t ts IH];
    intros own Hinv; [ cbn; lia | ].
  cbn [filter]. destruct (status t) eqn:Est.
  - assert (Hrest : filter (fun t0 => match status t0 with
                                      | Pending => true
                                      | _ => false
                                      end) ts = []).
    { pose proof (Hinv 0%nat t eq_refl Est) as Hown.
      assert (Hnone : forall k t', nth_error ts k = Some t' ->
                                   status t' <> Pending).
      { intros k t' Hk Hp. pose proof (Hinv (S k) t' Hk Hp). congruence. }
      clear - Hnone. induction ts as [| u us IHu]; [ reflexivity | ].
      cbn [filter]. destruct (status u) eqn:Eu.
      - exfalso. exact (Hnone 0%nat u eq_refl Eu).
      - apply IHu. intros k t' Hk. exact (Hnone (S k) t' Hk).
      - apply IHu. intros k t' Hk. exact (Hnone (S k) t' Hk).
      - apply IHu. intros k t' Hk. exact (Hnone (S k) t' Hk). }
    rewrite Hrest. cbn. lia.
  - apply (IH (option_map pred own)). intros k t' Hk Hp.
    rewrite (Hinv (S k) t' Hk Hp). reflexivity.
  - apply (IH (option_map pred own)). intros k t' Hk Hp.
    rewrite (Hinv (S k) t' Hk Hp). reflexivity.
  - apply (IH (option_map pred own)). intros k t' Hk Hp.
    rewrite (Hinv (S k) t' Hk Hp). reflexivity.
Qed.

(** X4: whatever the history of calls, thread steps and timer
    deadlines a controller has been through since [__init__], at most
    one timer is waiting to fire, and it is the one [self.timer]
    refers to. *)
Theorem at_most_one_timer_pending
        (f : Font) (a : Assets) (history : list Event) :
  let self := perform_all history (OLEDDisplay_init f a) in
  timer_inv self /\ (length (pending_timers self) <= 1)%nat.
Proof.
  cbv zeta.
  assert (Hinv : timer_inv (perform_all history (OLEDDisplay_init f a))).
  { unfold perform_all.
    generalize (timer_inv_init f a).
    generalize (OLEDDisplay_init f a) as self.
    induction history as [| e es IH]; intros self Hself; cbn [fold_left].
    - exact Hself.
    - apply IH, timer_inv_perform, Hself. }
  split; [ exact Hinv | apply timer_inv_at_most_one, Hinv ].
Qed.

(* ----------------------------------------------------------------- *)
(** *** A timer reaching its deadline                                 *)
(* ----------------------------------------------------------------- *)

Lemma fire_timer_not_pending (i : nat) (self : OLEDDisplay) :
  (forall t, nth_error (timers self) i = Some t -> status t <> Pending) ->
  fire_timer i self = self.
Proof.
  intros H. unfold fire_timer.
  destruct (nth_error (timers self) i) as [t |]; [ | reflexivity ].
  specialize (H t eq_refl). destruct (status t); congruence.
Qed.

(** The timer [display_message] has armed, seen from the state it
    returns. *)
Lemma display_message_armed (message : string) (duration : Q)
      (return_to_idle : bool) (self : OLEDDisplay) :
  (0 < duration)%Q ->
  let after := display_message message duration return_to_idle self in
  timer after = Some (length (timers self)) /\
  nth_error (timers after) (length (timers self))
    = Some (mkTimer duration
              (if return_to_idle then call_display_idle else call_clear)
              Pending).
Proof.
  intros Hd. cbv zeta.
  assert (Hb : Qle_bool duration 0 = false).
  { destruct (Qle_bool duration 0) eqn:E; [ | reflexivity ].
    apply Qle_bool_iff in E. exfalso. exact (Qlt_not_le _ _ Hd E). }
  destruct (display_message_positive message duration return_to_idle self Hb)
    as (Ht & Hts).
  split; [ exact Ht | ].
  rewrite Hts, nth_error_app2 by (rewrite cancel_timer_length; lia).
  rewrite cancel_timer_length, Nat.sub_diag. reflexivity.
Qed.

Lemma update_nth_settles (g : Timer -> Timer) (i : nat) (self : OLEDDisplay) :
  (forall t, status (g t) <> Pending) ->
  timer_inv self -> timer self = Some i ->
  all_settled (set_timers (update_nth i g (timers self)) self).
Proof.
  intros Hg Hinv Hown k t Hk Hp. cbn [timers set_timers] in Hk.
  rewrite nth_error_update_nth in Hk.
  destruct (Nat.eqb_spec k i) as [-> | Hne].
  - destruct (nth_error (timers self) i) as [t0 |]; [ | discriminate Hk ].
    cbn in Hk. inversion Hk; subst t. exact (Hg t0 Hp).
  - pose proof (Hinv k t Hk Hp). congruence.
Qed.

Lemma all_settled_ext (a b : OLEDDisplay) :
  timers a = timers b -> all_settled b -> all_settled a.
Proof. unfold all_settled. intros ->. auto. Qed.

Lemma all_settled_cancel_timer (self : OLEDDisplay) :
  all_settled self -> all_settled (cancel_timer self).
Proof.
  intros H. apply all_settled_pending, cancel_timer_none_pending,
              all_settled_timer_inv, H.
Qed.

Lemma all_settled_callback (c : Callback) (self : OLEDDisplay) :
  all_settled self ->
  all_settled (match c with
               | call_display_idle => display_idle self
               | call_clear => clear self
               end).
Proof.
  intros H. destruct c.
  - apply all_settled_ext with (b := self); [ | exact H ].
    apply play_animation_same_timers.
  - apply all_settled_ext with (b := cancel_timer (stop_animation self));
      [ reflexivity | ].
    apply all_settled_cancel_timer.
    apply all_settled_ext with (b := self); [ | exact H ].
    apply stop_animation_same_timers.
Qed.

(** Once the waiting timer has fired, none waits. *)
Lemma fire_timer_settles (i : nat) (self : OLEDDisplay) :
  timer_inv self -> timer self = Some i -> all_settled (fire_timer i self).
Proof.
  intros Hinv Hown. unfold fire_timer.
  destruct (nth_error (timers self) i) as [t |] eqn:Ei.
  - destruct (status t) eqn:Est.
    + intros k u Hk. cbn [timers set_timers] in Hk.
      rewrite nth_error_update_nth in Hk.
      assert (Hcb : all_settled
                      (match function t with
                       | call_display_idle =>
                           display_idle
                             (set_timers
                                (update_nth i
                                   (fun t0 => mkTimer (interval t0) (function t0)
                                                      Running)
                                   (timers self)) self)
                       | call_clear =>
                           clear
                             (set_timers
                                (update_nth i
                                   (fun t0 => mkTimer (interval t0) (function t0)
                                                      Running)
                                   (timers self)) self)
                       end)).
      { apply all_settled_callback, update_nth_settles;
          [ intros t0; cbn; discriminate | exact Hinv | exact Hown ]. }
      destruct (Nat.eqb k i).
      * destruct (nth_error _ k) as [u0 |]; [ | discriminate Hk ].
        cbn in Hk. inversion Hk. cbn. discriminate.
      * exact (Hcb k u Hk).
    + intros k u Hk Hp. pose proof (Hinv k u Hk Hp) as E.
      rewrite Hown in E. inversion E; subst k. congruence.
    + intros k u Hk Hp. pose proof (Hinv k u Hk Hp) as E.
      rewrite Hown in E. inversion E; subst k. congruence.
    + intros k u Hk Hp. pose proof (Hinv k u Hk Hp) as E.
      rewrite Hown in E. inversion E; subst k. congruence.
  - intros k u Hk Hp. pose proof (Hinv k u Hk Hp) as E.
    rewrite Hown in E. inversion E; subst k. congruence.
Qed.

(** X5: the deferred action of [display_message].  When the timer
    armed with [duration > 0] reaches its deadline, it starts the
    looping [idle] animation at 2 frames per second if
    [return_to_idle] was true, and otherwise clears the panel and
    leaves no animation; either way no timer is waiting afterwards,
    where at most the controller's own was waiting before. *)
Theorem deferred_action_fires
        (message : string) (duration : Q) (return_to_idle : bool)
        (self : OLEDDisplay) :
  (0 < duration)%Q ->
  let shown_message := display_message message duration return_to_idle self in
  let fired := fire_timer (length (timers self)) shown_message in
  (if return_to_idle
   then current_thread fired = Some (mkThread "idle" true 2 AtStart) /\
        is_animating fired = true
   else is_animating fired = false /\ no_thread_alive fired /\
        forall i j, getpixel (visible (display fired)) i j = false) /\
  (timer_inv self -> pending_timers fired = []).
Proof.
  intros Hd. cbv zeta.
  destruct (display_message_armed message return_to_idle self Hd)
    as (Hown & Harmed).
  split.
  - unfold fire_timer. rewrite Harmed. cbn [status function].
    destruct return_to_idle.
    + split; reflexivity.
    + match goal with
      | |- context [clear ?s] => set (running := s)
      end.
      destruct (stopped_and_cancelled running) as (Hflag & Hdead).
      split; [ exact Hflag | ]. split; [ exact Hdead | ].
      intros i j.
      change (visible (display (set_timers ?ts ?s))) with (visible (display s)).
      unfold clear, visible.
      cbn [display set_display Device_show Device_fill0 shown buffer].
      rewrite last_last. apply Image_new_getpixel.
  - intros Hinv. apply all_settled_pending, fire_timer_settles.
    + apply timer_inv_display_message, Hinv.
    + exact Hown.
Qed.

Lemma deferred_action_fires_witness :
  current_thread
    (fire_timer 0 (display_message "OK" 1%Q true Demo.fresh))
  = Some (mkThread "idle" true 2 AtStart).
Proof.
  pose proof (@deferred_action_fires "OK" 1%Q true Demo.fresh eq_refl) as H.
  cbv zeta in H. destruct H as ((Hthread & _) & _). exact Hthread.
Defined.

(** Cancelling the controller's own waiting timer marks it. *)
Lemma cancel_timer_own (self : OLEDDisplay) (i : nat) (t : Timer) :
  timer self = Some i -> nth_error (timers self) i = Some t ->
  status t = Pending ->
  nth_error (timers (cancel_timer self)) i
    = Some (mkTimer (interval t) (function t) Cancelled).
Proof.
  intros Hown Hi Hp. unfold cancel_timer. rewrite Hown, Hi.
  unfold Timer_is_alive. rewrite Hp. cbn [timers set_timers].
  rewrite nth_error_update_nth, Nat.eqb_refl, Hi. cbn.
  unfold Timer_cancel. rewrite Hp. reflexivity.
Qed.

(** X6: a deferred action that a later operation has cancelled never
    runs.  After [display_message] has armed its timer, a call of
    [clear], of [display_static_image] or of [display_message] cancels
    it, and the deadline of the cancelled timer then changes
    nothing. *)
Theorem cancelled_timer_never_fires
        (message : string) (duration : Q) (return_to_idle : bool)
        (self : OLEDDisplay) :
  (0 < duration)%Q ->
  let shown_message := display_message message duration return_to_idle self in
  let i := length (timers self) in
  fire_timer i (clear shown_message) = clear shown_message /\
  (forall image_name,
     fire_timer i (display_static_image image_name shown_message)
       = display_static_image image_name shown_message) /\
  (forall message' duration' return_to_idle',
     fire_timer i (display_message message' duration' return_to_idle'
                     shown_message)
       = display_message message' duration' return_to_idle' shown_message).
Proof.
  intros Hd. cbv zeta.
  destruct (display_message_armed message return_to_idle self Hd)
    as (Hown & Harmed).
  set (shown_message := display_message message duration return_to_idle self)
    in *.
  assert (Hcancelled :
            forall t, nth_error (timers (cancel_timer shown_message))
                                (length (timers self)) = Some t ->
                      status t <> Pending).
  { intros t Ht.
    rewrite (cancel_timer_own shown_message Hown Harmed eq_refl) in Ht.
    inversion Ht. cbn. discriminate. }
  assert (Hstopped :
            timers (cancel_timer (stop_animation shown_message))
            = timers (cancel_timer shown_message)).
  { destruct (stop_animation_same_timers shown_message) as (Ht & Hts & _).
    apply (cancel_timer_ext _ _ Ht Hts). }
  split; [ | split ].
  - apply fire_timer_not_pending. intros t Ht. apply Hcancelled.
    rewrite <- Hstopped. exact Ht.
  - intros image_name. apply fire_timer_not_pending. intros t Ht.
    apply Hcancelled. rewrite <- Hstopped.
    unfold display_static_image in Ht.
    destruct (find_image _ image_name) as [[img |] |]; exact Ht.
  - intros message' duration' return_to_idle'.
    apply fire_timer_not_pending. intros t Ht. apply Hcancelled.
    destruct (Qle_bool duration' 0) eqn:Hb.
    + destruct (display_message_not_positive message' duration'
                  return_to_idle' shown_message Hb) as (_ & Hts).
      rewrite Hts in Ht. exact Ht.
    + destruct (display_message_positive message' duration'
                  return_to_idle' shown_message Hb) as (_ & Hts).
      rewrite Hts, nth_error_app1 in Ht; [ exact Ht | ].
      rewrite cancel_timer_length.
      apply (proj1 (nth_error_Some _ _)). rewrite Harmed. intros E.
      discriminate E.
Qed.

Lemma cancelled_timer_never_fires_witness :
  fire_timer 0 (clear (display_message "OK" 1%Q true Demo.fresh))
  = clear (display_message "OK" 1%Q true Demo.fresh).
Proof.
  exact (proj1 (@cancelled_timer_never_fires "OK" 1%Q true Demo.fresh eq_refl)).
Defined.

Lemma callback_timers_length (c : Callback) (self : OLEDDisplay) :
  length (timers (match c with
                  | call_display_idle => display_idle self
                  | call_clear => clear self
                  end)) = length (timers self).
Proof.
  destruct c.
  - unfold display_idle.
    rewrite (proj2 (play_animation_same_timers "idle" true 2 self)).
    reflexivity.
  - unfold clear. cbn [timers set_display].
    rewrite cancel_timer_length.
    rewrite (proj1 (proj2 (stop_animation_same_timers self))). reflexivity.
Qed.

(** X7: a timer fires at most once: after its deadline has been
    handled, handling it again changes nothing, whatever the state
    and whichever timer. *)
Theorem timer_fires_at_most_once (i : nat) (self : OLEDDisplay) :
  fire_timer i (fire_timer i self) = fire_timer i self.
Proof.
  apply fire_timer_not_pending. intros t Ht.
  unfold fire_timer in Ht.
  destruct (nth_error (timers self) i) as [t0 |] eqn:Ei.
  - destruct (status t0) eqn:Est.
    + cbn [timers set_timers] in Ht.
      rewrite nth_error_update_nth, Nat.eqb_refl in Ht.
      match type of Ht with
      | option_map _ ?x = _ => destruct x as [u |]; [ | discriminate Ht ]
      end.
      cbn in Ht. inversion Ht. cbn. discriminate.
    + rewrite Ei in Ht. inversion Ht; subst t. congruence.
    + rewrite Ei in Ht. inversion Ht; subst t. congruence.
    + rewrite Ei in Ht. inversion Ht; subst t. congruence.
  - rewrite Ei in Ht. discriminate Ht.
Qed.

(* ----------------------------------------------------------------- *)
(** *** How an animation thread can end before its first frame        *)
(* ----------------------------------------------------------------- *)

(** The first step of the thread [play_animation] has started: the
    delay is computed first, then the frames are looked for. *)
Lemma first_step_outcome (name : string) (l : bool) (f : Z)
      (self : OLEDDisplay) :
  let started := play_animation name l f self in
  let ended (r : LogRecord) :=
    current_thread (_animate_step started) = Some (mkThread name l f Exited) /\
    log (_animate_step started) = log (stop_animation self) ++ [r] /\
    pushed (_animate_step started) = pushed (stop_animation self) in
  match delay_of f with
  | Raise e => ended (Error_in_animation name e)
  | Ok delay =>
      match find_frames self name with
      | Raise e => ended (Error_in_animation name e)
      | Ok None => ended (Animation_not_found name)
      | Ok (Some []) => ended (No_frames_found name)
      | Ok (Some frames) =>
          at_pc (_animate_step started) (AtWhile frames delay) /\
          log (_animate_step started) = log (stop_animation self) /\
          pushed (_animate_step started) = pushed (stop_animation self)
      end
  end.
Proof.
  cbv zeta.
  destruct (play_animation_same_assets name l f self) as (Ha & Hw & Hh & _).
  rewrite <- (find_frames_ext (play_animation name l f self) self name Ha Hw Hh).
  unfold _animate_step.
  cbn [play_animation current_thread set_current_thread pc].
  unfold _animate_prepare. cbn [fps animation_name].
  destruct (delay_of f) as [delay | e]; [ | repeat split ].
  destruct (find_frames _ name) as [[[| frame frames] |] | e];
    repeat split; auto with thread.
Qed.

(** A first step that ends the thread, with the record it logs: the
    arithmetic error of the delay when there is one, [r] otherwise. *)
Lemma first_step_ends (name : string) (l : bool) (f : Z) (n : nat)
      (self : OLEDDisplay) (r : LogRecord) :
  (forall delay, delay_of f = Ok delay ->
     current_thread (_animate_step (play_animation name l f self))
       = Some (mkThread name l f Exited) /\
     log (_animate_step (play_animation name l f self))
       = log (stop_animation self) ++ [r] /\
     pushed (_animate_step (play_animation name l f self))
       = pushed (stop_animation self)) ->
  let after := run (S n) (play_animation name l f self) in
  current_thread after = Some (mkThread name l f Exited) /\
  pushed after = pushed (stop_animation self) /\
  log after = log (stop_animation self)
                ++ [match delay_of f with
                    | Ok _ => r
                    | Raise e => Error_in_animation name e
                    end] /\
  (f <> 0 -> Z.abs f < float_limit ->
   log after = log (stop_animation self) ++ [r]).
Proof.
  intros Hok. cbv zeta.
  pose proof (first_step_outcome name l f self) as H. cbv zeta in H.
  assert (Hend :
            current_thread (_animate_step (play_animation name l f self))
              = Some (mkThread name l f Exited) /\
            log (_animate_step (play_animation name l f self))
              = log (stop_animation self)
                  ++ [match delay_of f with
                      | Ok _ => r
                      | Raise e => Error_in_animation name e
                      end] /\
            pushed (_animate_step (play_animation name l f self))
              = pushed (stop_animation self)).
  { destruct (delay_of f) as [delay | e]; [ apply (Hok delay eq_refl) | exact H ]. }
  destruct Hend as (Ht & Hlog & Hpush).
  assert (Hat : at_pc (_animate_step (play_animation name l f self)) Exited)
    by (eexists; split; [ exact Ht | reflexivity ]).
  cbn [run]. rewrite (run_Exited n Hat).
  split; [ exact Ht | ]. split; [ exact Hpush | ]. split; [ exact Hlog | ].
  intros Hf Hlim. rewrite Hlog, (delay_of_Ok Hf Hlim). reflexivity.
Qed.

Lemma run_after_exit (n : nat) (self : OLEDDisplay) (t : Thread) :
  current_thread self = Some t -> pc t = Exited -> run n self = self.
Proof. intros Ht Hpc. apply run_Exited. exists t. auto. Qed.

(** X8: an animation found neither in the user's directory nor among
    the packaged ones costs exactly one logged error and nothing
    else, for every [fps]: the thread [play_animation] starts ends at
    its first step and no frame reaches the panel, however long one
    waits.  The record is "not found" when [1.0 / fps] can be
    computed; with [fps = 0] or an [fps] beyond the range of floats it
    is the arithmetic error, raised before any directory is looked
    at. *)
Theorem missing_animation_is_logged
        (name : string) (l : bool) (f : Z) (n : nat) (self : OLEDDisplay) :
  user_animations_path (assets self) name = None ->
  package_animations_path (assets self) name = None ->
  let after := run (S n) (play_animation name l f self) in
  current_thread after = Some (mkThread name l f Exited) /\
  pushed after = pushed (stop_animation self) /\
  log after = log (stop_animation self)
                ++ [match delay_of f with
                    | Ok _ => Animation_not_found name
                    | Raise e => Error_in_animation name e
                    end] /\
  (f <> 0 -> Z.abs f < float_limit ->
   log after = log (stop_animation self) ++ [Animation_not_found name]).
Proof.
  intros Hu Hp. apply first_step_ends. intros delay Hdelay.
  pose proof (first_step_outcome name l f self) as H. cbv zeta in H.
  rewrite Hdelay in H. unfold find_frames in H. rewrite Hu, Hp in H.
  exact H.
Qed.

Lemma missing_animation_is_logged_witness :
  log (run 3 (play_animation "nowhere" true 10 Demo.fresh))
    = [Animation_not_found "nowhere"] /\
  log (run 3 (play_animation "nowhere" true 0 Demo.fresh))
    = [Error_in_animation "nowhere" ZeroDivisionError].
Proof.
  split.
  - assert (Hf : 10 <> 0) by discriminate.
    assert (Hlim : Z.abs 10 < float_limit) by (vm_compute; reflexivity).
    destruct (@missing_animation_is_logged "nowhere" true 10 2
                Demo.fresh eq_refl eq_refl) as (_ & _ & _ & Hlog).
    exact (Hlog Hf Hlim).
  - destruct (@missing_animation_is_logged "nowhere" true 0 2
                Demo.fresh eq_refl eq_refl) as (_ & _ & Hlog & _).
    exact Hlog.
Defined.

(** X9: a user directory that exists but holds no [.bmp] file hides
    the packaged animation of the same name, for every [fps]: the
    thread ends at its first step without a push, whatever the package
    holds, and logs exactly one record: "no frames found" when
    [1.0 / fps] can be computed, the arithmetic error with [fps = 0]
    or an [fps] beyond the range of floats. *)
Theorem empty_user_directory_hides_package
        (name : string) (l : bool) (f : Z) (n : nat) (self : OLEDDisplay)
        (user_animation_dir : Directory) :
  user_animations_path (assets self) name = Some user_animation_dir ->
  glob_bmp user_animation_dir = [] ->
  let after := run (S n) (play_animation name l f self) in
  current_thread after = Some (mkThread name l f Exited) /\
  pushed after = pushed (stop_animation self) /\
  log after = log (stop_animation self)
                ++ [match delay_of f with
                    | Ok _ => No_frames_found name
                    | Raise e => Error_in_animation name e
                    end] /\
  (f <> 0 -> Z.abs f < float_limit ->
   log after = log (stop_animation self) ++ [No_frames_found name]).
Proof.
  intros Hu Hglob. apply first_step_ends. intros delay Hdelay.
  pose proof (first_step_outcome name l f self) as H. cbv zeta in H.
  rewrite Hdelay in H. unfold find_frames in H. rewrite Hu, Hglob in H.
  exact H.
Qed.

Lemma empty_user_directory_hides_package_witness :
  log (run 1 (play_animation "spin" false 10 Damaged.fresh))
  = [No_frames_found "spin"].
Proof.
  assert (Hf : 10 <> 0) by discriminate.
  assert (Hlim : Z.abs 10 < float_limit) by (vm_compute; reflexivity).
  destruct (@empty_user_directory_hides_package "spin" false 10 0
              Damaged.fresh _ eq_refl eq_refl) as (_ & _ & _ & Hlog).
  exact (Hlog Hf Hlim).
Defined.

Lemma insert_sorted_In_inv (entry x : string * FileContent) (l : Directory) :
  x = entry \/ In x l -> In x (insert_sorted entry l).
Proof.
  induction l as [| h t IH]; cbn [insert_sorted].
  - intros [-> | []]. left. reflexivity.
  - destruct (String.leb (fst entry) (fst h)).
    + intros [-> | H]; [ left; reflexivity | right; exact H ].
    + intros [-> | [-> | H]].
      * right. apply IH. left. reflexivity.
      * left. reflexivity.
      * right. apply IH. right. exact H.
Qed.

Lemma sorted_In_inv (x : string * FileContent) (l : Directory) :
  In x l -> In x (sorted l).
Proof.
  induction l as [| h t IH]; cbn [sorted fold_right]; [ auto | ].
  intros [-> | H]; apply insert_sorted_In_inv;
    [ left; reflexivity | right; apply IH, H ].
Qed.

(** One file that does not decode makes the whole load fail. *)
Lemma load_frames_corrupt (self : OLEDDisplay) (files : Directory)
      (file : string) :
  In (file, Corrupt) files ->
  load_frames self files = Raise UnidentifiedImageError.
Proof.
  induction files as [| [name c] files IH]; intros Hin; [ destruct Hin | ].
  cbn [load_frames]. destruct Hin as [E | Hin].
  - inversion E; subst. reflexivity.
  - destruct c as [img |]; cbn [Image_open bind]; [ | reflexivity ].
    rewrite (IH Hin). reflexivity.
Qed.

(** X10: one [.bmp] file that cannot be decoded aborts the whole
    animation, good frames included, for every [fps]: the thread ends
    at its first step without a single push and logs exactly one
    record: the decoding error when [1.0 / fps] can be computed, the
    arithmetic error, raised before any file is opened, with
    [fps = 0] or an [fps] beyond the range of floats. *)
Theorem corrupt_frame_aborts_animation
        (name : string) (l : bool) (f : Z) (n : nat) (self : OLEDDisplay)
        (dir : Directory) (file : string) :
  user_animations_path (assets self) name = Some dir \/
  (user_animations_path (assets self) name = None /\
   package_animations_path (assets self) name = Some dir) ->
  In (file, Corrupt) dir -> ends_with ".bmp" file = true ->
  let after := run (S n) (play_animation name l f self) in
  current_thread after = Some (mkThread name l f Exited) /\
  pushed after = pushed (stop_animation self) /\
  log after = log (stop_animation self)
                ++ [match delay_of f with
                    | Ok _ => Error_in_animation name UnidentifiedImageError
                    | Raise e => Error_in_animation name e
                    end] /\
  (f <> 0 -> Z.abs f < float_limit ->
   log after = log (stop_animation self)
                 ++ [Error_in_animation name UnidentifiedImageError]).
Proof.
  intros Hdir Hin Hbmp.
  assert (Hload : load_frames self (sorted (glob_bmp dir))
                  = Raise UnidentifiedImageError).
  { apply load_frames_corrupt with (file := file).
    apply sorted_In_inv. unfold glob_bmp. apply filter_In.
    split; [ exact Hin | exact Hbmp ]. }
  assert (Hfind : find_frames self name = Raise UnidentifiedImageError).
  { unfold find_frames.
    destruct Hdir as [Hu | (Hu & Hp)].
    - rewrite Hu, Hload. reflexivity.
    - rewrite Hu, Hp, Hload. reflexivity. }
  apply first_step_ends. intros delay Hdelay.
  pose proof (first_step_outcome name l f self) as H. cbv zeta in H.
  rewrite Hdelay, Hfind in H. exact H.
Qed.

Lemma corrupt_frame_aborts_animation_witness :
  let after := run 4 (play_animation "blink" false 10 Damaged.fresh) in
  log after = [Error_in_animation "blink" UnidentifiedImageError] /\
  pushed after = pushed Damaged.fresh.
Proof.
  assert (Hf : 10 <> 0) by discriminate.
  assert (Hlim : Z.abs 10 < float_limit) by (vm_compute; reflexivity).
  assert (Hin : In ("b.bmp"%string, Corrupt)
                   [("a.bmp"%string, Bitmap Demo.dot); ("b.bmp"%string, Corrupt);
                    ("c.bmp"%string, Bitmap Demo.bar)])
    by (right; left; reflexivity).
  destruct (@corrupt_frame_aborts_animation "blink" false 10 3 Damaged.fresh
              _ "b.bmp" (or_introl eq_refl) Hin eq_refl)
    as (_ & Hpush & _ & Hlog).
  split; [ exact (Hlog Hf Hlim) | exact Hpush ].
Defined.

Lemma negative_delay_refused (f : Z) :
  f < 0 -> time_sleep (/ inject_Z f)%Q = Raise ValueError.
Proof.
  intros Hf. unfold time_sleep.
  destruct (Qle_bool 0 (/ inject_Z f)) eqn:E; [ | reflexivity ].
  apply Qle_bool_iff in E. exfalso.
  destruct f as [| p | p]; try lia.
  unfold Qle in E. cbn in E. lia.
Qed.

(** No step of the thread changes the arguments it was started
    with. *)
Lemma step_same_arguments (self : OLEDDisplay) :
  option_map (fun t => (animation_name t, loop t, fps t))
             (current_thread (_animate_step self))
  = option_map (fun t => (animation_name t, loop t, fps t))
               (current_thread self).
Proof.
  unfold _animate_step.
  destruct (current_thread self) as [t |] eqn:Et; [ | rewrite Et; reflexivity ].
  destruct (pc t) as [| ? ? | ? [| ? ?] ? | ? ? ? |] eqn:Epc;
    unfold _animate_prepare, except_exit, finally_exit, goto;
    repeat match goal with
      | |- context [match ?x with _ => _ end] => destruct x
      end; cbn; rewrite ?Et; reflexivity.
Qed.

Lemma run_same_arguments (n : nat) (self : OLEDDisplay) :
  option_map (fun t => (animation_name t, loop t, fps t))
             (current_thread (run n self))
  = option_map (fun t => (animation_name t, loop t, fps t))
               (current_thread self).
Proof.
  revert self. induction n as [| n IH]; intros self; cbn [run];
    [ reflexivity | ].
  rewrite IH. apply step_same_arguments.
Qed.

(** X11: with a negative [fps] within the range of floats the first
    frame is still shown: the thread pushes it, then [time.sleep]
    refuses the negative delay, the error is logged and the thread
    ends; no second frame follows. *)
Theorem negative_fps_shows_one_frame
        (name : string) (l : bool) (f : Z) (n : nat) (self : OLEDDisplay)
        (frame : Image) (more : list Image) :
  f < 0 -> - float_limit < f ->
  find_frames self name = Ok (Some (frame :: more)) ->
  let after := run (4 + n) (play_animation name l f self) in
  at_pc after Exited /\
  pushed after = pushed (stop_animation self) ++ [frame] /\
  log after = log (stop_animation self) ++ [Error_in_animation name ValueError].
Proof.
  intros Hf Hlim Hfind. cbv zeta.
  assert (Hf0 : f <> 0) by lia.
  assert (Habs : Z.abs f < float_limit) by lia.
  pose proof (first_step_outcome name l f self) as H. cbv zeta in H.
  rewrite (delay_of_Ok Hf0 Habs), Hfind in H. destruct H as (Hwhile & Hlog1 & Hpush1).
  set (started := play_animation name l f self) in *.
  destruct (step_AtWhile_up Hwhile) as (Hfor & Hpush2 & Hlog2);
    [ rewrite step_is_animating; reflexivity | ].
  destruct (step_AtFor_cons Hfor) as (Hsleep & Hpush3 & Hlog3).
  pose proof (run_same_arguments 3 started) as Hargs.
  cbn [run] in Hargs.
  set (s3 := _animate_step (_animate_step (_animate_step started))) in *.
  assert (H4 : at_pc (_animate_step s3) Exited /\
               pushed (_animate_step s3) = pushed s3 /\
               log (_animate_step s3)
                 = log s3 ++ [Error_in_animation name ValueError]).
  { destruct Hsleep as (t & Ht & Hpc).
    rewrite Ht in Hargs. cbn in Hargs. inversion Hargs as [[Hname Hloop Hfps]].
    unfold _animate_step. rewrite Ht, Hpc.
    rewrite (negative_delay_refused Hf). unfold except_exit. rewrite Hname.
    repeat split. auto with thread. }
  destruct H4 as (Hex & Hpush4 & Hlog4).
  replace (4 + n)%nat with (S (S (S (S n)))) by lia. cbn [run].
  fold s3. rewrite (run_Exited n Hex).
  split; [ exact Hex | ]. split.
  - rewrite Hpush4, Hpush3, Hpush2, Hpush1. reflexivity.
  - rewrite Hlog4, Hlog3, Hlog2, Hlog1. reflexivity.
Qed.

Lemma negative_fps_shows_one_frame_witness :
  let after := run 9 (play_animation "spin" true (-3) Demo.fresh) in
  pushed after = pushed Demo.fresh ++ [_center_image Demo.fresh Demo.dot] /\
  log after = [Error_in_animation "spin" ValueError].
Proof.
  assert (Hf : -3 < 0) by lia.
  assert (Hlim : - float_limit < -3) by (vm_compute; reflexivity).
  destruct (@negative_fps_shows_one_frame "spin" true (-3) 5 Demo.fresh
              _ _ Hf Hlim eq_refl) as (_ & Hpush & Hlog).
  split; [ exact Hpush | exact Hlog ].
Defined.

(* ----------------------------------------------------------------- *)
(** *** Playing to the end, and playing for ever                      *)
(* ----------------------------------------------------------------- *)

Lemma step_same_loop (self : OLEDDisplay) :
  option_map loop (current_thread (_animate_step self))
  = option_map loop (current_thread self).
Proof.
  unfold _animate_step.
  destruct (current_thread self) as [t |] eqn:Et; [ | rewrite Et; reflexivity ].
  destruct (pc t) as [| ? ? | ? [| ? ?] ? | ? ? ? |] eqn:Epc;
    unfold _animate_prepare, except_exit, finally_exit, goto;
    repeat match goal with
      | |- context [match ?x with _ => _ end] => destruct x
      end; cbn; rewrite ?Et; reflexivity.
Qed.

Lemma run_same_loop (n : nat) (self : OLEDDisplay) :
  option_map loop (current_thread (run n self))
  = option_map loop (current_thread self).
Proof.
  revert self. induction n as [| n IH]; intros self; cbn [run];
    [ reflexivity | ].
  rewrite IH. apply step_same_loop.
Qed.

(** The end of a pass: [loop] decides between another pass and the
    [finally] clause. *)
Lemma step_AtFor_nil_loop (self : OLEDDisplay) (frames : list Image)
      (delay : Q) (b : bool) :
  at_pc self (AtFor frames [] delay) ->
  option_map loop (current_thread self) = Some b ->
  (if b then at_pc (_animate_step self) (AtWhile frames delay)
   else at_pc (_animate_step self) Exited /\
        is_animinating (_animate_step self) = Some false) /\
  pushed (_animate_step self) = pushed self /\
  log (_animate_step self) = log self.
Proof.
  intros (t & Ht & Hpc) Hloop. rewrite Ht in Hloop. cbn in Hloop.
  inversion Hloop as [Hb]. unfold _animate_step. rewrite Ht, Hpc.
  destruct (loop t); cbn [negb]; repeat split; auto with thread.
Qed.

(** One pass of a looping animation brings the thread back to the
    [while] with every frame pushed once. *)
Lemma run_cycle (frames : list Image) (delay : Q) (self : OLEDDisplay) :
  Qle_bool 0 delay = true ->
  at_pc self (AtWhile frames delay) -> is_animating self = true ->
  option_map loop (current_thread self) = Some true ->
  at_pc (run (2 * length frames + 2) self) (AtWhile frames delay) /\
  pushed (run (2 * length frames + 2) self) = pushed self ++ frames /\
  log (run (2 * length frames + 2) self) = log self.
Proof.
  intros Hdelay Hat Hflag Hloop.
  replace (2 * length frames + 2)%nat
    with (1 + (2 * length frames + 1))%nat by lia.
  rewrite run_add, run_add. cbn [run].
  destruct (step_AtWhile_up Hat Hflag) as (Hfor & Hpush1 & Hlog1).
  destruct (run_pass Hdelay Hfor) as (Hend & Hpush2 & Hlog2).
  destruct (@step_AtFor_nil_loop _ frames delay true Hend)
    as (Hwhile & Hpush3 & Hlog3).
  { rewrite run_same_loop, step_same_loop. exact Hloop. }
  split; [ exact Hwhile | ]. split.
  - rewrite Hpush3, Hpush2, Hpush1. reflexivity.
  - rewrite Hlog3, Hlog2, Hlog1. reflexivity.
Qed.

Lemma run_cycles (frames : list Image) (delay : Q) (k : nat) :
  Qle_bool 0 delay = true ->
  forall self,
    at_pc self (AtWhile frames delay) -> is_animating self = true ->
    option_map loop (current_thread self) = Some true ->
    at_pc (run (k * (2 * length frames + 2)) self) (AtWhile frames delay) /\
    pushed (run (k * (2 * length frames + 2)) self)
      = pushed self ++ cycles k frames /\
    log (run (k * (2 * length frames + 2)) self) = log self.
Proof.
  intros Hdelay. induction k as [| k IH]; intros self Hat Hflag Hloop.
  - cbn. rewrite app_nil_r. auto.
  - replace (S k * (2 * length frames + 2))%nat
      with ((2 * length frames + 2) + k * (2 * length frames + 2))%nat by lia.
    rewrite run_add.
    destruct (run_cycle Hdelay Hat Hflag Hloop) as (Hat' & Hpush & Hlog).
    destruct (IH _ Hat') as (Hat'' & Hpush' & Hlog').
    + rewrite run_is_animating. exact Hflag.
    + rewrite run_same_loop. exact Hloop.
    + split; [ exact Hat'' | ]. split.
      * rewrite Hpush', Hpush. cbn [cycles]. rewrite app_assoc. reflexivity.
      * rewrite Hlog', Hlog. reflexivity.
Qed.

Lemma looping_step (frames : list Image) (self : OLEDDisplay) :
  looping frames self -> looping frames (_animate_step self).
Proof.
  intros (Hflag & t & Ht & Hloop & delay & Hdelay & Hpc).
  split; [ rewrite step_is_animating; exact Hflag | ].
  unfold _animate_step. rewrite Ht.
  destruct Hpc as [Hpc | (rest & [Hpc | Hpc])]; rewrite Hpc.
  - rewrite Hflag. eexists. split; [ reflexivity | ].
    split; [ exact Hloop | ]. exists delay. split; [ exact Hdelay | ].
    right. exists frames. left. reflexivity.
  - destruct rest as [| frame rest].
    + rewrite Hloop. cbn [negb]. eexists. split; [ reflexivity | ].
      split; [ exact Hloop | ]. exists delay. split; [ exact Hdelay | ].
      left. reflexivity.
    + eexists. split; [ reflexivity | ].
      split; [ exact Hloop | ]. exists delay. split; [ exact Hdelay | ].
      right. exists rest. right. reflexivity.
  - unfold time_sleep. rewrite Hdelay.
    eexists. split; [ reflexivity | ].
    split; [ exact Hloop | ]. exists delay. split; [ exact Hdelay | ].
    right. exists rest. left. reflexivity.
Qed.

Lemma looping_run (frames : list Image) (n : nat) (self : OLEDDisplay) :
  looping frames self -> looping frames (run n self).
Proof.
  revert self. induction n as [| n IH]; intros self H; cbn [run];
    [ exact H | ].
  apply IH, looping_step, H.
Qed.

Lemma looping_alive (frames : list Image) (self : OLEDDisplay) :
  looping frames self -> ~ at_pc self Exited.
Proof.
  intros (_ & t & Ht & _ & delay & _ & Hpc) (t' & Ht' & Hpc').
  rewrite Ht in Ht'. inversion Ht'; subst t'.
  destruct Hpc as [Hpc | (rest & [Hpc | Hpc])]; congruence.
Qed.

(** The thread [play_animation] has started, after its first step,
    when frames were found. *)
Lemma first_step_frames (name : string) (l : bool) (f : Z)
      (self : OLEDDisplay) (frames : list Image) :
  f <> 0 -> Z.abs f < float_limit -> frames <> [] ->
  find_frames self name = Ok (Some frames) ->
  let s1 := _animate_step (play_animation name l f self) in
  at_pc s1 (AtWhile frames (/ inject_Z f)%Q) /\
  log s1 = log (stop_animation self) /\
  pushed s1 = pushed (stop_animation self) /\
  is_animating s1 = true /\
  option_map loop (current_thread s1) = Some l.
Proof.
  intros Hf Hlim Hne Hfind. cbv zeta.
  pose proof (first_step_outcome name l f self) as H. cbv zeta in H.
  rewrite (delay_of_Ok Hf Hlim), Hfind in H. destruct frames as [| frame frames]; [ contradiction | ].
  destruct H as (Hat & Hlog & Hpush).
  split; [ exact Hat | ]. split; [ exact Hlog | ]. split; [ exact Hpush | ].
  split; [ rewrite step_is_animating; reflexivity | ].
  rewrite step_same_loop. reflexivity.
Qed.

(** X12: a looping animation with a positive [fps] within the range
    of floats plays until it is stopped: left alone, its thread never leaves [_animate], logs
    nothing, and after every full pass the panel has received the
    frames once more, in order. *)
Theorem looping_animation_keeps_cycling
        (name : string) (f : Z) (self : OLEDDisplay) (frames : list Image) :
  0 < f -> f < float_limit -> frames <> [] ->
  find_frames self name = Ok (Some frames) ->
  (forall k,
     let after := run (1 + k * (2 * length frames + 2))
                      (play_animation name true f self) in
     pushed after = pushed (stop_animation self) ++ cycles k frames /\
     log after = log (stop_animation self)) /\
  (forall n, ~ at_pc (run n (play_animation name true f self)) Exited).
Proof.
  intros Hf Hlim Hne Hfind.
  assert (Hf0 : f <> 0) by lia.
  assert (Habs : Z.abs f < float_limit) by lia.
  destruct (first_step_frames name true self Hf0 Habs Hne Hfind)
    as (Hat & Hlog & Hpush & Hflag & Hloop).
  pose proof (delay_not_negative Hf) as Hdelay.
  split.
  - intros k. cbv zeta. rewrite run_add. cbn [run].
    destruct (run_cycles k Hdelay Hat Hflag Hloop) as (_ & Hpush' & Hlog').
    rewrite Hpush', Hlog', Hpush, Hlog. split; reflexivity.
  - intros [| n].
    + cbn [run]. intros (t & Ht & Hpc). cbn in Ht. inversion Ht; subst t.
      discriminate Hpc.
    + cbn [run]. apply (@looping_alive frames), looping_run.
      split; [ exact Hflag | ].
      destruct Hat as (t & Ht & Hpc). exists t. split; [ exact Ht | ].
      rewrite Ht in Hloop. cbn in Hloop. injection Hloop as Hl.
      split; [ exact Hl | ].
      exists (/ inject_Z f)%Q. split; [ exact Hdelay | ].
      left. exact Hpc.
Qed.

Lemma looping_animation_keeps_cycling_witness :
  pushed (run 13 (play_animation "idle" true 2 Demo.fresh))
  = pushed Demo.fresh
      ++ [_center_image Demo.fresh Demo.dot; _center_image Demo.fresh Demo.bar;
          _center_image Demo.fresh Demo.dot; _center_image Demo.fresh Demo.bar].
Proof.
  assert (Hf : 0 < 2) by lia.
  assert (Hlim : 2 < float_limit) by (vm_compute; reflexivity).
  assert (Hne : [_center_image Demo.fresh Demo.dot;
                 _center_image Demo.fresh Demo.bar] <> []) by discriminate.
  destruct (@looping_animation_keeps_cycling "idle" 2 Demo.fresh _ Hf Hlim Hne
              eq_refl)
    as (Hcycles & _).
  exact (proj1 (Hcycles 2%nat)).
Defined.

(** X13: a one-shot animation with a positive [fps] within the range
    of floats ends by itself:
    after one pass the thread has left [_animate] through its
    [finally] clause, every frame has been pushed exactly once, in
    order, nothing has been logged, and waiting longer changes
    nothing. *)
Theorem one_shot_animation_ends
        (name : string) (f : Z) (m : nat) (self : OLEDDisplay)
        (frames : list Image) :
  0 < f -> f < float_limit -> frames <> [] ->
  find_frames self name = Ok (Some frames) ->
  let after := run (2 * length frames + 3 + m)
                   (play_animation name false f self) in
  at_pc after Exited /\
  pushed after = pushed (stop_animation self) ++ frames /\
  log after = log (stop_animation self) /\
  is_animinating after = Some false.
Proof.
  intros Hf Hlim Hne Hfind. cbv zeta.
  assert (Hf0 : f <> 0) by lia.
  assert (Habs : Z.abs f < float_limit) by lia.
  destruct (first_step_frames name false self Hf0 Habs Hne Hfind)
    as (Hat & Hlog & Hpush & Hflag & Hloop).
  pose proof (delay_not_negative Hf) as Hdelay.
  set (s1 := _animate_step (play_animation name false f self)) in *.
  destruct (step_AtWhile_up Hat Hflag) as (Hfor & Hpush2 & Hlog2).
  destruct (run_pass Hdelay Hfor) as (Hend & Hpush3 & Hlog3).
  destruct (@step_AtFor_nil_loop _ frames (/ inject_Z f)%Q false Hend)
    as ((Hex & Hfin) & Hpush4 & Hlog4).
  { rewrite run_same_loop, step_same_loop. exact Hloop. }
  assert (Hrun : run (2 * length frames + 3 + m)
                     (play_animation name false f self)
                 = _animate_step (run (2 * length frames) (_animate_step s1))).
  { replace (2 * length frames + 3 + m)%nat
      with (2 + (2 * length frames + (1 + m)))%nat by lia.
    rewrite (run_add 2), (run_add (2 * length frames)), (run_add 1).
    cbn [run]. fold s1. apply (run_Exited m Hex). }
  rewrite Hrun.
  split; [ exact Hex | ]. split; [ | split ].
  - rewrite Hpush4, Hpush3, Hpush2, Hpush. reflexivity.
  - rewrite Hlog4, Hlog3, Hlog2, Hlog. reflexivity.
  - exact Hfin.
Qed.

Lemma one_shot_animation_ends_witness :
  let after := run 20 (play_animation "spin" false 10 Demo.fresh) in
  pushed after
  = pushed Demo.fresh
      ++ [_center_image Demo.fresh Demo.dot; _center_image Demo.fresh Demo.bar;
          _center_image Demo.fresh Demo.square] /\
  log after = [].
Proof.
  assert (Hf : 0 < 10) by lia.
  assert (Hlim : 10 < float_limit) by (vm_compute; reflexivity).
  assert (Hne : [_center_image Demo.fresh Demo.dot;
                 _center_image Demo.fresh Demo.bar;
                 _center_image Demo.fresh Demo.square] <> []) by discriminate.
  destruct (@one_shot_animation_ends "spin" 10 11 Demo.fresh _ Hf Hlim Hne
              eq_refl)
    as (_ & Hpush & Hlog & _).
  split; [ exact Hpush | exact Hlog ].
Defined.

(* ----------------------------------------------------------------- *)
(** *** The order of the frames                                       *)
(* ----------------------------------------------------------------- *)

Lemma string_leb_refl (s : string) : String.leb s s = true.
Proof. destruct (String.leb_total s s); assumption. Qed.

Lemma string_leb_trans (a b c : string) :
  String.leb a b = true -> String.leb b c = true -> String.leb a c = true.
Proof.
  revert b c. induction a as [| x a IH]; intros b c Hab Hbc.
  - destruct c; reflexivity.
  - destruct b as [| y b]; [ discriminate Hab | ].
    destruct c as [| z c]; [ discriminate Hbc | ].
    unfold String.leb in *. cbn [String.compare] in *.
    unfold Ascii.compare in *.
    destruct (N.compare_spec (N_of_ascii x) (N_of_ascii y)) as [Exy | Lxy | Gxy];
      [ | | discriminate Hab ];
      destruct (N.compare_spec (N_of_ascii y) (N_of_ascii z)) as [Eyz | Lyz | Gyz];
      try discriminate Hbc.
    + rewrite Exy, Eyz, N.compare_refl. apply (IH b c Hab Hbc).
    + rewrite Exy. rewrite (proj2 (N.compare_lt_iff _ _) Lyz). reflexivity.
    + rewrite <- Eyz. rewrite (proj2 (N.compare_lt_iff _ _) Lxy). reflexivity.
    + rewrite (proj2 (N.compare_lt_iff _ _) (N.lt_trans _ _ _ Lxy Lyz)).
      reflexivity.
Qed.

Lemma name_le_trans (a b c : string * FileContent) :
  name_le a b -> name_le b c -> name_le a c.
Proof. apply string_leb_trans. Qed.

Lemma insert_sorted_Permutation (entry : string * FileContent) (l : Directory) :
  Permutation (entry :: l) (insert_sorted entry l).
Proof.
  induction l as [| h t IH]; cbn [insert_sorted]; [ apply Permutation_refl | ].
  destruct (String.leb (fst entry) (fst h)); [ apply Permutation_refl | ].
  eapply perm_trans; [ apply perm_swap | apply perm_skip, IH ].
Qed.

Lemma sorted_Permutation (l : Directory) : Permutation l (sorted l).
Proof.
  induction l as [| h t IH]; cbn [sorted fold_right]; [ constructor | ].
  eapply perm_trans; [ apply perm_skip, IH | apply insert_sorted_Permutation ].
Qed.

Lemma insert_sorted_StronglySorted (entry : string * FileContent)
      (l : Directory) :
  StronglySorted name_le l -> StronglySorted name_le (insert_sorted entry l).
Proof.
  induction l as [| h t IH]; intros Hl; cbn [insert_sorted].
  - repeat constructor.
  - apply StronglySorted_inv in Hl. destruct Hl as (Ht & Hh).
    destruct (String.leb (fst entry) (fst h)) eqn:E.
    + constructor; [ constructor; assumption | ].
      constructor; [ exact E | ].
      eapply Forall_impl; [ | exact Hh ].
      intros x Hx. apply (name_le_trans (b := h)); [ exact E | exact Hx ].
    + constructor; [ apply IH, Ht | ].
      assert (Hhe : name_le h entry).
      { destruct (String.leb_total (fst entry) (fst h)) as [H | H];
          [ congruence | exact H ]. }
      apply Forall_forall. intros x Hx.
      apply insert_sorted_In in Hx. destruct Hx as [-> | Hx];
        [ exact Hhe | ].
      rewrite Forall_forall in Hh. apply Hh, Hx.
Qed.

Lemma sorted_StronglySorted (l : Directory) : StronglySorted name_le (sorted l).
Proof.
  induction l as [| h t IH]; cbn [sorted fold_right]; [ constructor | ].
  apply insert_sorted_StronglySorted, IH.
Qed.

(** Two orderings of the same files with distinct names agree. *)
Lemma sorted_unique (l1 : Directory) :
  forall l2,
    StronglySorted name_le l1 -> StronglySorted name_le l2 ->
    Permutation l1 l2 -> NoDup (map fst l1) -> l1 = l2.
Proof.
  induction l1 as [| a l1 IH]; intros l2 H1 H2 Hperm Hnodup.
  - apply Permutation_nil in Hperm. congruence.
  - destruct l2 as [| b l2].
    + apply Permutation_sym, Permutation_nil in Hperm. discriminate Hperm.
    + apply StronglySorted_inv in H1. destruct H1 as (H1 & Ha).
      apply StronglySorted_inv in H2. destruct H2 as (H2 & Hb).
      rewrite Forall_forall in Ha, Hb.
      inversion Hnodup as [| ? ? Hnotin Hnodup']; subst.
      assert (Hab : a = b).
      { assert (Hb_in : In b (a :: l1))
          by (eapply Permutation_in;
              [ apply Permutation_sym, Hperm | left; reflexivity ]).
        destruct Hb_in as [E | Hb_in]; [ exact E | ].
        assert (Ha_in : In a (b :: l2))
          by (eapply Permutation_in; [ exact Hperm | left; reflexivity ]).
        destruct Ha_in as [E | Ha_in]; [ congruence | ].
        exfalso. apply Hnotin.
        rewrite (String.leb_antisym _ _ (Ha b Hb_in) (Hb a Ha_in)).
        apply in_map, Hb_in. }
      subst b. f_equal.
      apply IH; try assumption.
      eapply Permutation_cons_inv. exact Hperm.
Qed.

Lemma filter_Permutation {A : Type} (p : A -> bool) (l l' : list A) :
  Permutation l l' -> Permutation (filter p l) (filter p l').
Proof.
  induction 1 as [| x l l' _ IH | x y l | l l' l'' _ IH1 _ IH2]; cbn [filter].
  - constructor.
  - destruct (p x); [ apply perm_skip | ]; exact IH.
  - destruct (p x), (p y); try apply Permutation_refl. apply perm_swap.
  - eapply perm_trans; eassumption.
Qed.

Lemma filter_NoDup_names (dir : Directory) :
  NoDup (map fst dir) -> NoDup (map fst (glob_bmp dir)).
Proof.
  unfold glob_bmp. induction dir as [| [n c] dir IH]; intros H; cbn;
    [ constructor | ].
  inversion H as [| ? ? Hnotin Hrest]; subst.
  destruct (ends_with ".bmp" n); [ | apply IH, Hrest ].
  cbn. constructor; [ | apply IH, Hrest ].
  intros Hin. apply Hnotin.
  apply in_map_iff in Hin. destruct Hin as (x & Hx & Hin).
  apply filter_In in Hin. apply in_map_iff. exists x. tauto.
Qed.

(** X14: playback order does not depend on the order in which the
    operating system lists the directory.  The files [_animate] loads
    are the [.bmp] entries of the directory, each once, in ascending
    order of file name; two listings of the same files (with distinct
    names) give the same frames in the same order. *)
Theorem playback_order_is_by_file_name
        (self : OLEDDisplay) (dir dir' : Directory) :
  Permutation dir dir' -> NoDup (map fst dir) ->
  StronglySorted name_le (sorted (glob_bmp dir)) /\
  Permutation (glob_bmp dir) (sorted (glob_bmp dir)) /\
  sorted (glob_bmp dir) = sorted (glob_bmp dir') /\
  load_frames self (sorted (glob_bmp dir))
    = load_frames self (sorted (glob_bmp dir')).
Proof.
  intros Hperm Hnodup.
  assert (Heq : sorted (glob_bmp dir) = sorted (glob_bmp dir')).
  { apply sorted_unique; try apply sorted_StronglySorted.
    - eapply perm_trans; [ apply Permutation_sym, sorted_Permutation | ].
      eapply perm_trans; [ | apply sorted_Permutation ].
      apply filter_Permutation, Hperm.
    - eapply Permutation_NoDup;
        [ apply Permutation_map, sorted_Permutation
        | apply filter_NoDup_names, Hnodup ]. }
  split; [ apply sorted_StronglySorted | ].
  split; [ apply sorted_Permutation | ].
  split; [ exact Heq | rewrite Heq; reflexivity ].
Qed.

Lemma playback_order_is_by_file_name_witness :
  map fst (sorted (glob_bmp [("2.bmp"%string, Bitmap Demo.bar);
                             ("notes.txt"%string, Corrupt);
                             ("1.bmp"%string, Bitmap Demo.dot)]))
  = map fst (sorted (glob_bmp [("1.bmp"%string, Bitmap Demo.dot);
                               ("2.bmp"%string, Bitmap Demo.bar);
                               ("notes.txt"%string, Corrupt)])).
Proof.
  assert (Hperm : Permutation
                    [("2.bmp"%string, Bitmap Demo.bar);
                     ("notes.txt"%string, Corrupt);
                     ("1.bmp"%string, Bitmap Demo.dot)]
                    [("1.bmp"%string, Bitmap Demo.dot);
                     ("2.bmp"%string, Bitmap Demo.bar);
                     ("notes.txt"%string, Corrupt)]).
  { eapply perm_trans;
      [ apply perm_skip, perm_swap | ].
    apply perm_swap. }
  assert (Hnodup : NoDup (map fst [("2.bmp"%string, Bitmap Demo.bar);
                                   ("notes.txt"%string, Corrupt);
                                   ("1.bmp"%string, Bitmap Demo.dot)])).
  { cbn. repeat constructor; cbn; intuition discriminate. }
  destruct (@playback_order_is_by_file_name Demo.fresh _ _ Hperm Hnodup)
    as (_ & _ & Heq & _).
  rewrite Heq. reflexivity.
Defined.

(* ----------------------------------------------------------------- *)
(** *** Stills that do not decode; sizes; inversion                   *)
(* ----------------------------------------------------------------- *)

(** X15: a still whose file cannot be decoded costs one logged error
    and no push.  A damaged file in the user's directory is not
    replaced by the packaged one: the packaged file is not looked at
    once the user's exists. *)
Theorem undecodable_image_is_logged
        (image_name : string) (self : OLEDDisplay) :
  user_icons_path (assets self) (image_name ++ ".bmp") = Some Corrupt \/
  (user_icons_path (assets self) (image_name ++ ".bmp") = None /\
   package_icons_path (assets self) (image_name ++ ".bmp") = Some Corrupt) ->
  let after := display_static_image image_name self in
  display after = display (stop_animation self) /\
  log after = log (stop_animation self)
                ++ [Error_displaying_image image_name UnidentifiedImageError].
Proof.
  intros Hfile. cbv zeta.
  destruct (display_static_image_prepared self) as (Hd & Hl & Ha & _).
  assert (Hfind : find_image (cancel_timer (stop_animation self)) image_name
                  = Raise UnidentifiedImageError).
  { rewrite (find_image_ext _ self image_name Ha). unfold find_image.
    destruct Hfile as [Hu | (Hu & Hp)].
    - rewrite Hu. reflexivity.
    - rewrite Hu, Hp. reflexivity. }
  unfold display_static_image. rewrite Hfind.
  cbn [display log logging_error]. rewrite Hd, Hl. split; reflexivity.
Qed.

Lemma undecodable_image_is_logged_witness :
  let after := display_static_image "ok" Damaged.fresh in
  pushed after = pushed Damaged.fresh /\
  log after = [Error_displaying_image "ok" UnidentifiedImageError].
Proof.
  destruct (@undecodable_image_is_logged "ok" Damaged.fresh (or_introl eq_refl))
    as (Hd & Hl).
  split; [ unfold pushed; rewrite Hd; reflexivity | exact Hl ].
Defined.

(** X16: what centering keeps.  A source that fits the panel is shown
    whole: each of its pixels appears, moved by the centering offset.
    A source at least as large as the panel fills it: every pixel of
    the panel shows the source pixel under it, so the panel shows the
    central part.  A source of exactly the panel's size is shown as
    it is. *)
Theorem centering_keeps_or_crops (self : OLEDDisplay) (img : Image) :
  0 <= width self -> 0 <= height self -> wf_image img ->
  let x := (width self - img_width img) / 2 in
  let y := (height self - img_height img) / 2 in
  (img_width img <= width self -> img_height img <= height self ->
   forall a b, 0 <= a < img_width img -> 0 <= b < img_height img ->
     0 <= a + x < width self /\ 0 <= b + y < height self /\
     getpixel (_center_image self img) (a + x) (b + y) = getpixel img a b) /\
  (width self <= img_width img -> height self <= img_height img ->
   forall i j, 0 <= i < width self -> 0 <= j < height self ->
     0 <= i - x < img_width img /\ 0 <= j - y < img_height img /\
     getpixel (_center_image self img) i j = getpixel img (i - x) (j - y)) /\
  (img_width img = width self -> img_height img = height self ->
   forall i j, 0 <= i < width self -> 0 <= j < height self ->
     getpixel (_center_image self img) i j = getpixel img i j).
Proof.
  intros Hw Hh Himg x y.
  pose proof (Z.div_mod (width self - img_width img) 2 ltac:(lia)) as Dx.
  pose proof (Z.mod_pos_bound (width self - img_width img) 2 ltac:(lia)) as Mx.
  pose proof (Z.div_mod (height self - img_height img) 2 ltac:(lia)) as Dy.
  pose proof (Z.mod_pos_bound (height self - img_height img) 2 ltac:(lia)) as My.
  fold x in Dx. fold y in Dy.
  split; [ | split ].
  - intros Hfw Hfh a b Ha Hb.
    assert (Hax : 0 <= a + x < width self) by lia.
    assert (Hby : 0 <= b + y < height self) by lia.
    split; [ exact Hax | ]. split; [ exact Hby | ].
    rewrite (_center_image_getpixel self Hw Hh Himg Hax Hby).
    unfold covered. fold x y.
    replace ((x <=? a + x) && (a + x <? x + img_width img)
             && ((y <=? b + y) && (b + y <? y + img_height img))) with true.
    + f_equal; lia.
    + symmetry. repeat (apply andb_true_iff; split);
        try (apply Z.leb_le; lia); apply Z.ltb_lt; lia.
  - intros Hlw Hlh i j Hi Hj.
    split; [ lia | ]. split; [ lia | ].
    rewrite (_center_image_getpixel self Hw Hh Himg Hi Hj).
    unfold covered. fold x y.
    replace ((x <=? i) && (i <? x + img_width img)
             && ((y <=? j) && (j <? y + img_height img))) with true;
      [ reflexivity | ].
    symmetry. repeat (apply andb_true_iff; split);
      try (apply Z.leb_le; lia); apply Z.ltb_lt; lia.
  - intros Ew Eh i j Hi Hj.
    rewrite (_center_image_getpixel self Hw Hh Himg Hi Hj).
    unfold covered. fold x y.
    assert (Hx0 : x = 0) by lia. assert (Hy0 : y = 0) by lia.
    replace ((x <=? i) && (i <? x + img_width img)
             && ((y <=? j) && (j <? y + img_height img))) with true.
    + rewrite Hx0, Hy0, !Z.sub_0_r. reflexivity.
    + symmetry. repeat (apply andb_true_iff; split);
        try (apply Z.leb_le; lia); apply Z.ltb_lt; lia.
Qed.

Lemma centering_keeps_or_crops_witness :
  getpixel (_center_image Demo.fresh Demo.square) (1 + 63) (1 + 15)
  = getpixel Demo.square 1 1.
Proof.
  assert (Hw : 0 <= width Demo.fresh) by (cbn; lia).
  assert (Hh : 0 <= height Demo.fresh) by (cbn; lia).
  destruct (centering_keeps_or_crops Demo.fresh Hw Hh Demo_square_wf)
    as (Hfits & _).
  assert (Hfw : img_width Demo.square <= width Demo.fresh) by (cbn; lia).
  assert (Hfh : img_height Demo.square <= height Demo.fresh) by (cbn; lia).
  assert (Ha : 0 <= 1 < img_width Demo.square) by (cbn; lia).
  assert (Hb : 0 <= 1 < img_height Demo.square) by (cbn; lia).
  exact (proj2 (proj2 (Hfits Hfw Hfh 1 1 Ha Hb))).
Defined.

(** X17: inverting twice gives the image back, and inverting changes
    neither the size nor the well-formedness of an image. *)
Theorem invert_involutive (img : Image) :
  invert (invert img) = img /\
  img_size (invert img) = img_size img /\
  (wf_image img -> wf_image (invert img)).
Proof.
  split; [ | split; [ reflexivity | apply invert_wf ] ].
  destruct img as [w h rows]. unfold invert. cbn. f_equal.
  rewrite map_map. rewrite <- (map_id rows) at 2.
  apply map_ext. intros row. rewrite map_map.
  rewrite <- (map_id row) at 2. apply map_ext, negb_involutive.
Qed.

(** X18: every frame an animation sends to the panel, and the frame of
    a still, has exactly the panel's size and rows of the right
    length, whatever the sizes of the source files. *)
Theorem pushed_frames_fit_panel (self : OLEDDisplay) :
  0 <= width self -> 0 <= height self ->
  (forall (name : string) (l : bool) (f : Z) (n : nat),
     exists extra,
       pushed (run n (play_animation name l f self))
         = pushed (stop_animation self) ++ extra /\
       Forall (fun frame => img_size frame = (width self, height self) /\
                            wf_image frame) extra) /\
  (forall (image_name : string) (img : Image),
     find_image self image_name = Ok (Some img) ->
     exists frame,
       pushed (display_static_image image_name self)
         = pushed (stop_animation self) ++ [frame] /\
       img_size frame = (width self, height self) /\ wf_image frame).
Proof.
  intros Hw Hh. split.
  - intros name l f n.
    destruct (play_animation_same_assets name l f self) as (Ha & Hw' & Hh' & Hp).
    rewrite <- Hp. apply run_thread_frames.
    unfold thread_frames. cbn [play_animation current_thread set_current_thread
                                 pc animation_name].
    intros frames Hfind.
    rewrite (find_frames_ext (play_animation name l f self) self name Ha Hw' Hh')
      in Hfind.
    eapply Forall_impl; [ | apply (find_frames_sources _ _ Hfind) ].
    cbn. intros frame (dir & file & img & _ & _ & ->).
    split; [ apply _center_image_size | apply _center_image_wf; assumption ].
  - intros image_name img Hfind.
    destruct (display_static_image_prepared self) as (Hd & _ & Ha & Hw' & Hh').
    exists (_center_image self (invert img)).
    split; [ | split;
               [ apply _center_image_size
               | apply _center_image_wf; assumption ] ].
    unfold display_static_image.
    rewrite (find_image_ext _ self image_name Ha), Hfind.
    unfold pushed, push. cbn [display set_display Device_show Device_image
                                shown buffer].
    rewrite Hd, (_center_image_ext _ self (invert img) Hw' Hh'). reflexivity.
Qed.

Lemma pushed_frames_fit_panel_witness :
  exists frame,
    pushed (display_static_image "ok" Demo.fresh) = pushed Demo.fresh ++ [frame] /\
    img_size frame = (128, 32).
Proof.
  assert (Hw : 0 <= width Demo.fresh) by (cbn; lia).
  assert (Hh : 0 <= height Demo.fresh) by (cbn; lia).
  destruct (pushed_frames_fit_panel Demo.fresh Hw Hh) as (_ & Hstill).
  destruct (Hstill "ok"%string Demo.square eq_refl) as (frame & Hp & Hs & _).
  exists frame. split; [ exact Hp | exact Hs ].
Defined.

(* ----------------------------------------------------------------- *)
(** *** The frame of a message                                        *)
(* ----------------------------------------------------------------- *)

Lemma stop_animation_same_canvas (self : OLEDDisplay) :
  image (stop_animation self) = image self /\
  font (stop_animation self) = font self.
Proof.
  rewrite stop_animation_eq.
  destruct (current_thread self) as [t |]; [ | split; reflexivity ].
  destruct (Thread_is_alive t); [ | split; reflexivity ].
  cbn [image font set_current_thread].
  destruct (run_same_controls (steps_to_exit (pc t)) (set_is_animating false self))
    as (_ & _ & Hf & _ & _ & _ & _ & Hi).
  rewrite Hf, Hi. split; reflexivity.
Qed.

Lemma cancel_timer_same_canvas (self : OLEDDisplay) :
  image (cancel_timer self) = image self /\
  font (cancel_timer self) = font self.
Proof.
  unfold cancel_timer.
  destruct (timer self) as [i |]; [ | split; reflexivity ].
  destruct (nth_error (timers self) i) as [t |]; [ | split; reflexivity ].
  destruct (Timer_is_alive t); split; reflexivity.
Qed.

Lemma map_const_repeat {A B : Type} (c : B) (l : list A) :
  map (fun _ => c) l = repeat c (length l).
Proof. induction l as [| a l IH]; cbn; [ reflexivity | rewrite IH; reflexivity ]. Qed.

(** Darkening a well-formed canvas gives the blank canvas of its
    size. *)
Lemma draw_rectangle_black_blank (img : Image) :
  wf_image img ->
  draw_rectangle_black img = Image_new (img_width img) (img_height img).
Proof.
  intros (_ & _ & Hlen & Hrows). unfold draw_rectangle_black, Image_new.
  f_equal. rewrite <- Hlen. clear Hlen.
  induction (img_rows img) as [| row rows IH]; [ reflexivity | ].
  inversion Hrows as [| ? ? Hrow Hrest]; subst.
  cbn [map repeat length]. rewrite (IH Hrest), map_const_repeat, Hrow.
  reflexivity.
Qed.

(** X19: the frame of a message owes nothing to what was drawn
    before.  [display_message] sends exactly one frame: the text drawn
    by the font on a dark canvas, at the position that centers its
    measured box on the panel; that frame is the new canvas and what
    the panel shows. *)
Theorem message_frame_is_fresh
        (message : string) (duration : Q) (return_to_idle : bool)
        (self : OLEDDisplay) (b0 b1 b2 b3 : Z) :
  wf_image (image self) ->
  textbbox (font self) message = (b0, b1, b2, b3) ->
  let frame :=
    draw_text (font self)
      (Image_new (img_width (image self)) (img_height (image self)))
      ((width self - (b2 - b0)) / 2, (height self - (b3 - b1)) / 2)
      message in
  let after := display_message message duration return_to_idle self in
  pushed after = pushed (stop_animation self) ++ [frame] /\
  image after = frame /\
  visible (display after) = frame /\
  log after = log (stop_animation self).
Proof.
  intros Hwf Hbox. cbv zeta. unfold display_message.
  destruct (stop_animation_same_canvas self) as (Hi & Hf).
  destruct (cancel_timer_same_canvas (stop_animation self)) as (Hi' & Hf').
  destruct (cancel_timer_same (stop_animation self))
    as (Hd & Hl & _ & Hw & Hh & _).
  destruct (stop_animation_same_timers self) as (_ & _ & _ & Hw' & Hh').
  remember (cancel_timer (stop_animation self)) as ready eqn:Eready.
  clear Eready.
  assert (Hdraw :
            pushed (draw_message message ready)
              = pushed (stop_animation self)
                  ++ [draw_text (font self)
                        (Image_new (img_width (image self))
                                   (img_height (image self)))
                        ((width self - (b2 - b0)) / 2,
                         (height self - (b3 - b1)) / 2) message] /\
            image (draw_message message ready)
              = draw_text (font self)
                  (Image_new (img_width (image self)) (img_height (image self)))
                  ((width self - (b2 - b0)) / 2,
                   (height self - (b3 - b1)) / 2) message /\
            visible (display (draw_message message ready))
              = draw_text (font self)
                  (Image_new (img_width (image self)) (img_height (image self)))
                  ((width self - (b2 - b0)) / 2,
                   (height self - (b3 - b1)) / 2) message /\
            log (draw_message message ready) = log (stop_animation self)).
  { unfold draw_message.
    cbn [font set_image width height image].
    rewrite Hf', Hf, Hbox, Hi', Hi, Hw, Hw', Hh, Hh'.
    unfold pushed, push, visible.
    cbn [display set_display set_image image Device_show Device_image shown
           buffer log].
    rewrite Hd, Hl.
    rewrite (draw_rectangle_black_blank Hwf).
    split; [ reflexivity | ]. split; [ reflexivity | ].
    split; [ apply last_last | reflexivity ]. }
  destruct (negb (Qle_bool duration 0)); [ destruct return_to_idle | ];
    exact Hdraw.
Qed.

Lemma Image_new_128_32_wf : wf_image (Image_new 128 32).
Proof. apply Image_new_wf; lia. Qed.

Lemma message_frame_is_fresh_witness :
  pushed (display_message "OK" 0%Q true Demo.fresh)
  = pushed Demo.fresh
      ++ [draw_text Demo.box_font (Image_new 128 32) (58, 10) "OK"].
Proof.
  assert (Hwf : wf_image (image Demo.fresh)) by exact Image_new_128_32_wf.
  destruct (@message_frame_is_fresh "OK" 0%Q true Demo.fresh 0 0 12 11
              Hwf eq_refl) as (Hpush & _).
  exact Hpush.
Defined.
